(** * Bidirectional binary archive (Serialization/serializer.cpp)

    A shallow embedding of [Archive], [FileArchive] and the two entry points
    [SerializeToFile] / [SerializeFromFile], together with the properties
    the design document states about them.

    Conventions of the embedding.
    - [int] and [unsigned int] are 32 bits wide; [size_t] is 64 bits wide
      (an LP64 target).  Integers are [Z] and every narrowing conversion is
      written out ([to_int32], [to_uint32]).
    - A [char] is an [ascii]; a block of memory and the content of a file
      are [list ascii]; a [std::string] is the [list ascii] of its
      characters (the terminator kept by [c_str] is not one of them).
    - The byte order of the machine is a parameter ([byte_order]).
    - [assert] is the macro of a translation unit compiled as written, with
      no [NDEBUG]: a failed assertion stops the process.
    - The medium is ideal: a write of a count that is not negative on a
      good output stream stores all its bytes, and memory is never
      exhausted. *)

From Stdlib Require Import ZArith Lia List Ascii String.
From stdpp Require Import base option list gmap strings.

Local Open Scope Z_scope.

(** ** Object representation of arithmetic values *)

Inductive byte_order := LittleEndian | BigEndian.
Existing Class byte_order.

Definition byte_of_Z (z : Z) : ascii := ascii_of_N (Z.to_N (z mod 256)).
Definition Z_of_byte (c : ascii) : Z := Z.of_N (N_of_ascii c).

(** The [n] low-order bytes of [z], least significant first. *)
Fixpoint le_bytes (n : nat) (z : Z) : list ascii :=
  match n with
  | O => []
  | S n' => byte_of_Z z :: le_bytes n' (z / 256)
  end.

Fixpoint le_value (l : list ascii) : Z :=
  match l with
  | [] => 0
  | c :: r => Z_of_byte c + 256 * le_value r
  end.

Definition in_memory_order {bo : byte_order} (l : list ascii) : list ascii :=
  match bo with
  | LittleEndian => l
  | BigEndian => rev l
  end.

(** Memory image of an integer object of [n] bytes holding [z]. *)
Definition image {bo : byte_order} (n : nat) (z : Z) : list ascii :=
  in_memory_order (le_bytes n z).

(** The unsigned number a block of memory holds. *)
Definition unsigned_of_image {bo : byte_order} (l : list ascii) : Z :=
  le_value (in_memory_order l).

Definition wrap_unsigned (bits : Z) (z : Z) : Z := z mod 2 ^ bits.
Definition wrap_signed (bits : Z) (z : Z) : Z :=
  let u := z mod 2 ^ bits in
  if u <? 2 ^ (bits - 1) then u else u - 2 ^ bits.

Definition INT_MAX : Z := 2147483647.
Definition to_int32 (z : Z) : Z := wrap_signed 32 z.
Definition to_uint32 (z : Z) : Z := wrap_unsigned 32 z.

Definition sizeof_int : nat := 4.

Definition int_of_image {bo : byte_order} (l : list ascii) : Z :=
  to_int32 (unsigned_of_image l).
Definition uint_of_image {bo : byte_order} (l : list ascii) : Z :=
  to_uint32 (unsigned_of_image l).

(** ** Outcomes of a call *)

Inductive failure :=
  | AssertionFailed      (* assert(...) was false: std::abort *)
  | LengthError          (* std::length_error left uncaught: std::terminate *)
  | UndefinedBehaviour.  (* the standard gives the execution no meaning *)

Inductive outcome (A : Type) :=
  | Done (a : A)
  | Stop (f : failure).
Arguments Done {A} a.
Arguments Stop {A} f.

#[global] Instance outcome_ret : MRet outcome := @Done.
#[global] Instance outcome_bind : MBind outcome := fun A B k m =>
  match m with
  | Done a => k a
  | Stop f => Stop f
  end.

(** ** std::fstream over a file system *)

Record filesystem := mk_filesystem {
  files : gmap string (list ascii);   (* existing files and their content *)
  denied : gset string                (* paths that cannot be opened for output *)
}.

Record fstream := mk_fstream {
  is_open : bool;          (* the file buffer holds an open file *)
  failbit : bool;          (* failbit or badbit is set: [!*this] *)
  content : list ascii;    (* bytes of the file as seen through the stream *)
  gpos : nat;              (* position of the next byte to read *)
  closings : nat        (* ghost: closings so far, by a call of close() or
                              by the destructor closing a file still open *)
}.

Definition closed_stream : fstream :=
  {| is_open := false; failbit := true; content := []; gpos := 0%nat;
     closings := 0%nat |}.

Definition fresh_stream (c : list ascii) : fstream :=
  {| is_open := true; failbit := false; content := c; gpos := 0%nat;
     closings := 0%nat |}.

Inductive Mode := Write | Read.

(** [std::fstream(path, ios_mode | binary)]: [out] creates or truncates the
    file, [in] needs an existing file; a failed open sets failbit. *)
Definition fstream_open (fs : filesystem) (path : string) (m : Mode)
  : filesystem * fstream :=
  match m with
  | Read =>
      match files fs !! path with
      | Some c => (fs, fresh_stream c)
      | None => (fs, closed_stream)
      end
  | Write =>
      if decide (path ∈ denied fs) then (fs, closed_stream)
      else (mk_filesystem (<[path := []]> (files fs)) (denied fs), fresh_stream [])
  end.

(** [ostream::write(s, n)]: a stream that is not good stores nothing.  With
    a negative count no character is put, and since the number put differs
    from the count the stream sets badbit. *)
Definition fstream_write (s : fstream) (data : list ascii) (n : Z) : fstream :=
  if failbit s then s
  else {| is_open := is_open s; failbit := n <? 0;
          content := content s ++ take (Z.to_nat n) data;
          gpos := gpos s; closings := closings s |}.

(** [istream::read(s, n)] into the memory block [dest]: the bytes obtained
    overwrite the start of [dest]; fewer than [n] bytes obtained sets
    failbit (with eofbit). *)
Definition fstream_read (s : fstream) (n : Z) (dest : list ascii)
  : fstream * list ascii :=
  if failbit s then (s, dest)
  else
    let got := take (Z.to_nat n) (drop (gpos s) (content s)) in
    ({| is_open := is_open s;
        failbit := negb (Z.of_nat (length got) =? n);
        content := content s;
        gpos := (gpos s + length got)%nat;
        closings := closings s |},
     got ++ drop (length got) dest).

(** [fstream::close()]: closes the file, or sets failbit when none is open. *)
Definition fstream_close (s : fstream) : fstream :=
  {| is_open := false;
     failbit := if is_open s then failbit s else true;
     content := content s; gpos := gpos s;
     closings := S (closings s) |}.

(** ** Archive and FileArchive *)

Record FileArchive := mk_FileArchive {
  mode_ : Mode;
  path_ : string;
  file_ : fstream
}.

Definition IsWrite (a : FileArchive) : bool :=
  match mode_ a with Write => true | Read => false end.
Definition IsRead (a : FileArchive) : bool :=
  match mode_ a with Read => true | Write => false end.

(** [file_ && *file_]: the pointer is never null once constructed. *)
Definition IsStreamValid (a : FileArchive) : bool := negb (failbit (file_ a)).

Definition with_file (a : FileArchive) (s : fstream) : FileArchive :=
  {| mode_ := mode_ a; path_ := path_ a; file_ := s |}.

Definition FileArchive_ctor (fs : filesystem) (path : string) (m : Mode)
  : filesystem * FileArchive :=
  let '(fs', s) := fstream_open fs path m in
  (fs', {| mode_ := m; path_ := path; file_ := s |}).

Section Primitives.
Context {bo : byte_order}.

(** [FileArchive::operator<<(int&)] *)
Definition op_int (a : FileArchive) (val : Z) : FileArchive * Z :=
  if negb (IsStreamValid a) then (a, val)
  else if IsWrite a then
    (with_file a (fstream_write (file_ a) (image sizeof_int val) 4), val)
  else
    let '(s, mem) := fstream_read (file_ a) 4 (image sizeof_int val) in
    (with_file a s, int_of_image mem).

(** [FileArchive::operator<<(unsigned int&)] *)
Definition op_uint (a : FileArchive) (val : Z) : FileArchive * Z :=
  if negb (IsStreamValid a) then (a, val)
  else if IsWrite a then
    (with_file a (fstream_write (file_ a) (image sizeof_int val) 4), val)
  else
    let '(s, mem) := fstream_read (file_ a) 4 (image sizeof_int val) in
    (with_file a s, uint_of_image mem).

End Primitives.

Definition NUL : ascii := zero.

(** [val.c_str()]: the characters followed by the terminator. *)
Definition c_str (val : list ascii) : list ascii := val ++ [NUL].

(** Element types a [std::vector] is instantiated with.  An arithmetic
    type is described by what the archive uses of it: its size and how its
    bytes are read back as a number (a floating-point value is carried as
    its bit pattern).  [vector<bool>] has no [data()] and a class type has
    no [operator<<] overload, so neither instantiates the container
    operation. *)
Inductive arithmetic :=
  | Integer (size : positive) (signed : bool)
  | FloatingPoint (size : positive).

Inductive ctype :=
  | Arithmetic (k : arithmetic)
  | StdString
  | StdVector (elem : ctype).

Definition sizeof (k : arithmetic) : nat :=
  match k with
  | Integer size _ => Pos.to_nat size
  | FloatingPoint size => Pos.to_nat size
  end.

Definition t_int : arithmetic := Integer 4 true.
Definition t_uint : arithmetic := Integer 4 false.
Definition t_float : arithmetic := FloatingPoint 4.
Definition t_double : arithmetic := FloatingPoint 8.

Section Containers.
Context {bo : byte_order}.

(** [FileArchive::operator<<(std::string&)] *)
Definition op_string (a : FileArchive) (val : list ascii)
  : outcome (FileArchive * list ascii) :=
  if negb (IsStreamValid a) then Done (a, val)
  else if IsWrite a then
    let len := to_int32 (Z.of_nat (length val) + 1) in
    let s1 := fstream_write (file_ a) (image sizeof_int len) 4 in
    let s2 := fstream_write s1 (c_str val) len in
    Done (with_file a s2, val)
  else
    (* [int len;] has no initialiser: the dummy image is never observed,
       a short read leaves [len] indeterminate. *)
    let '(s1, mem) := fstream_read (file_ a) 4 (image sizeof_int 0) in
    if failbit s1 then Stop UndefinedBehaviour
    else
      let len := int_of_image mem in
      (* [resize] takes a size_t: a negative [len] exceeds max_size(). *)
      if len <? 0 then Stop LengthError
      else
        let val1 := resize (Z.to_nat len) NUL val in
        let '(s2, val2) := fstream_read s1 len val1 in
        Done (with_file a s2, val2).

(** [FileArchive::SerializeBuffer(void* data, int bytes)]; [data] is the
    memory block the pointer designates. *)
Definition SerializeBuffer (a : FileArchive) (data : list ascii) (bytes : Z)
  : outcome (FileArchive * list ascii) :=
  if negb (IsStreamValid a) then Done (a, data)
  else if IsWrite a then
    let s1 := fstream_write (file_ a) (image sizeof_int bytes) 4 in
    let s2 := fstream_write s1 data bytes in
    Done (with_file a s2, data)
  else
    let '(s1, mem) := fstream_read (file_ a) 4 (image sizeof_int 0) in
    let read_bytes := int_of_image mem in
    if read_bytes =? bytes then
      let '(s2, data') := fstream_read s1 bytes data in
      Done (with_file a s2, data')
    else Stop AssertionFailed.

(** Value of an object of arithmetic type [k] stored in [mem]. *)
Definition of_image (k : arithmetic) (mem : list ascii) : Z :=
  match k with
  | Integer size true => wrap_signed (8 * Z.pos size) (unsigned_of_image mem)
  | Integer size false => wrap_unsigned (8 * Z.pos size) (unsigned_of_image mem)
  | FloatingPoint size => wrap_unsigned (8 * Z.pos size) (unsigned_of_image mem)
  end.

(** [val.data()]: the elements' images one after the other. *)
Definition vector_data (k : arithmetic) (val : list Z) : list ascii :=
  concat (map (image (sizeof k)) val).

(** The [count] elements stored in the block [mem]. *)
Fixpoint vector_of_data (k : arithmetic) (count : nat) (mem : list ascii) : list Z :=
  match count with
  | O => []
  | S c => of_image k (take (sizeof k) mem) :: vector_of_data k c (drop (sizeof k) mem)
  end.

(** [Archive::operator<<(std::vector<T>&)], [BasicType T]: lines 44-62.
    [val.size() * sizeof(T)] is a size_t handed to an [int] parameter.
    The vector after the call is what its memory block holds. *)
Definition vector_basic (k : arithmetic) (a : FileArchive) (val : list Z)
  : outcome (FileArchive * list Z) :=
  if IsWrite a then
    let size := to_uint32 (Z.of_nat (length val)) in
    let '(a1, _) := op_uint a size in
    '(a2, mem) ← SerializeBuffer a1 (vector_data k val)
                   (to_int32 (Z.of_nat (length val) * Z.of_nat (sizeof k)));
    Done (a2, vector_of_data k (length val) mem)
  else
    let '(a1, size) := op_uint a 0 in
    let val1 := resize (Z.to_nat size) 0 val in
    '(a2, mem) ← SerializeBuffer a1 (vector_data k val1)
                   (to_int32 (Z.of_nat (length val1) * Z.of_nat (sizeof k)));
    Done (a2, vector_of_data k (length val1) mem).

(** The loop [for(int idx = 0; idx < size; ++idx) *this << val[idx];].
    [remaining] is [size - idx], the iterations left: the guard holds
    exactly when it is not zero.  [++idx] past INT_MAX overflows an [int]. *)
Fixpoint each_element {T} (op : FileArchive -> T -> outcome (FileArchive * T))
    (remaining : nat) (idx : Z) (a : FileArchive) (val : list T)
  : outcome (FileArchive * list T) :=
  match remaining with
  | O => Done (a, val)
  | S r =>
      match val !! Z.to_nat idx with
      | None => Stop UndefinedBehaviour
      | Some x =>
          '(a1, x1) ← op a x;
          if idx <? INT_MAX
          then each_element op r (idx + 1) a1 (<[Z.to_nat idx := x1]> val)
          else Stop UndefinedBehaviour
      end
  end.

(** [Archive::operator<<(std::vector<T>&)], any other [T]: lines 64-89.
    [op] is the overload [*this << val[idx]] resolves to, [dflt] a
    value-initialised [T]. *)
Definition vector_composite {T} (op : FileArchive -> T -> outcome (FileArchive * T))
    (dflt : T) (a : FileArchive) (val : list T)
  : outcome (FileArchive * list T) :=
  if IsWrite a then
    let size := to_uint32 (Z.of_nat (length val)) in
    let '(a1, _) := op_uint a size in
    each_element op (Z.to_nat size) 0 a1 val
  else
    let '(a1, size) := op_uint a 0 in
    let val1 := resize (Z.to_nat size) dflt val in
    each_element op (Z.to_nat size) 0 a1 val1.

End Containers.

(** ** Typed values *)

Fixpoint denote (t : ctype) : Type :=
  match t with
  | Arithmetic _ => Z
  | StdString => list ascii
  | StdVector elem => list (denote elem)
  end.

(** A value-initialised object: what [resize] appends. *)
Definition value_init (t : ctype) : denote t :=
  match t with
  | Arithmetic _ => 0
  | StdString => []
  | StdVector _ => []
  end.

Section Objects.
Context {bo : byte_order}.

(** [*this << val] for [val] of type [std::vector<elem>].  The compiler
    picks the overload when it instantiates the call; each case below is
    the function that instantiation is compiled to: the constrained
    template for an arithmetic [elem], the unconstrained one otherwise,
    whose [*this << val[idx]] is in turn the overload for [elem]. *)
Fixpoint vector_op (elem : ctype)
  : FileArchive -> list (denote elem) -> outcome (FileArchive * list (denote elem)) :=
  match elem with
  | Arithmetic k => vector_basic k
  | StdString => vector_composite op_string (value_init StdString)
  | StdVector e => vector_composite (vector_op e) (value_init (StdVector e))
  end.

(** A member a [Serialize] callback hands to the archive: the overloads of
    [operator<<] accept an [int], an [unsigned int], a [std::string] or a
    [std::vector]. *)
Inductive field :=
  | int_field (val : Z)
  | uint_field (val : Z)
  | string_field (val : list ascii)
  | vector_field (elem : ctype) (val : list (denote elem)).

Definition serialize_field (a : FileArchive) (f : field)
  : outcome (FileArchive * field) :=
  match f with
  | int_field val => let '(a1, v) := op_int a val in Done (a1, int_field v)
  | uint_field val => let '(a1, v) := op_uint a val in Done (a1, uint_field v)
  | string_field val => '(a1, v) ← op_string a val; Done (a1, string_field v)
  | vector_field elem val => '(a1, v) ← vector_op elem a val; Done (a1, vector_field elem v)
  end.

(** [struct ISerializable { virtual void Serialize(Archive&) = 0; }] *)
Class ISerializable (T : Type) :=
  Serialize : FileArchive -> T -> outcome (FileArchive * T).

(** An object whose callback passes its members to the archive one after
    the other, the same ones in both modes (as [Foo::Serialize] does). *)
Fixpoint serialize_members (a : FileArchive) (obj : list field)
  : outcome (FileArchive * list field) :=
  match obj with
  | [] => Done (a, [])
  | f :: rest =>
      '(a1, f1) ← serialize_field a f;
      '(a2, rest1) ← serialize_members a1 rest;
      Done (a2, f1 :: rest1)
  end.

#[global] Instance members_serializable : ISerializable (list field) :=
  serialize_members.

End Objects.

(** ** Destruction *)

(** Closing an open output file makes the bytes handed to the stream the
    content of the file. *)
Definition close_effect (fs : filesystem) (a : FileArchive) : filesystem :=
  if is_open (file_ a) && IsWrite a
  then mk_filesystem (<[path_ a := content (file_ a)]> (files fs)) (denied fs)
  else fs.

(** The body of [FileArchive::~FileArchive], lines 146-151. *)
Definition dtor_body (fs : filesystem) (a : FileArchive) : filesystem * FileArchive :=
  if negb (IsStreamValid a)
  then (close_effect fs a, with_file a (fstream_close (file_ a)))
  else (fs, a).

(** [~basic_fstream]: the file buffer closes a file that is still open, and
    has nothing to do on one that is not. *)
Definition fstream_dtor (s : fstream) : fstream :=
  {| is_open := false; failbit := failbit s; content := content s;
     gpos := gpos s;
     closings := if is_open s then S (closings s) else closings s |}.

(** Destruction of a [FileArchive]: the body, then the members
    ([unique_ptr<fstream>] deletes the stream). *)
Definition FileArchive_dtor (fs : filesystem) (a : FileArchive)
  : filesystem * FileArchive :=
  let '(fs1, a1) := dtor_body fs a in
  (close_effect fs1 a1, with_file a1 (fstream_dtor (file_ a1))).

(** ** Entry points *)

(** A block [{ FileArchive file(path, mode); body(file); }].  A stopped
    process runs no destructor. *)
Definition with_archive {T} (fs : filesystem) (path : string) (m : Mode)
    (body : FileArchive -> outcome (FileArchive * T)) : outcome (filesystem * T) :=
  let '(fs1, file) := FileArchive_ctor fs path m in
  '(file1, r) ← body file;
  Done ((FileArchive_dtor fs1 file1).1, r).

Definition SerializeToFile {T} `{ISerializable T} (fs : filesystem) (obj : T)
    (path : string) : outcome (filesystem * T) :=
  with_archive fs path Write (fun file => Serialize file obj).

Definition SerializeFromFile {T} `{ISerializable T} (fs : filesystem) (obj : T)
    (path : string) : outcome (filesystem * T) :=
  with_archive fs path Read (fun file => Serialize file obj).

(** [struct Foo] of the example. *)
Definition Foo (integer : Z) (str : list ascii) (vector : list Z)
    (vector_str : list (list ascii)) : list field :=
  [ int_field integer; string_field str;
    vector_field (Arithmetic t_int) vector;
    vector_field StdString vector_str ].

Definition chars (s : string) : list ascii := list_ascii_of_string s.

Definition empty_disk : filesystem := mk_filesystem ∅ ∅.

Definition foo_main : list field :=
  Foo 2 (chars "Hello") [1; 2; 3]
      [chars "a"; chars "HelloHelloHelloHelloHelloHelloHelloHelloHelloHelloHelloHello!"].

(** * Vocabulary of the properties *)

Section Vocabulary.
Context {bo : byte_order}.

(** The stream after [bytes] have been stored through it. *)
Definition stream_put (s : fstream) (bytes : list ascii) : fstream :=
  {| is_open := is_open s; failbit := false; content := content s ++ bytes;
     gpos := gpos s; closings := closings s |}.

(** The stream after [n] bytes have been taken from it. *)
Definition stream_skip (s : fstream) (n : nat) : fstream :=
  {| is_open := is_open s; failbit := false; content := content s;
     gpos := (gpos s + n)%nat; closings := closings s |}.

(** The same once the stream has set badbit. *)
Definition stream_put_bad (s : fstream) (bytes : list ascii) : fstream :=
  {| is_open := is_open s; failbit := true; content := content s ++ bytes;
     gpos := gpos s; closings := closings s |}.

Definition put (a : FileArchive) (bytes : list ascii) : FileArchive :=
  with_file a (stream_put (file_ a) bytes).
Definition put_bad (a : FileArchive) (bytes : list ascii) : FileArchive :=
  with_file a (stream_put_bad (file_ a) bytes).
Definition skip (a : FileArchive) (n : nat) : FileArchive :=
  with_file a (stream_skip (file_ a) n).

(** What is left to read. *)
Definition pending (a : FileArchive) : list ascii :=
  drop (gpos (file_ a)) (content (file_ a)).

Definition writer (a : FileArchive) : Prop :=
  mode_ a = Write /\ failbit (file_ a) = false.
Definition reader (a : FileArchive) : Prop :=
  mode_ a = Read /\ failbit (file_ a) = false.

Definition new_writer (path : string) : FileArchive :=
  {| mode_ := Write; path_ := path; file_ := fresh_stream [] |}.
Definition new_reader (path : string) (c : list ascii) : FileArchive :=
  {| mode_ := Read; path_ := path; file_ := fresh_stream c |}.

(** The file system once [path] holds [bytes]. *)
Definition stored (fs : filesystem) (path : string) (bytes : list ascii) : filesystem :=
  mk_filesystem (<[path := bytes]> (files fs)) (denied fs).

(** The bytes the string operation stores for [val]: the table of the
    design document, section 4.2. *)
Definition text_wire (val : list ascii) : list ascii :=
  image sizeof_int (Z.of_nat (length val) + 1) ++ c_str val.

Definition hello : list ascii := chars "Hello".
Definition hello_wire : list ascii := image sizeof_int 6 ++ hello ++ [NUL].

(** The values an object of type [k] can hold. *)
Definition representable (k : arithmetic) (z : Z) : Prop :=
  match k with
  | Integer size true =>
      - 2 ^ (8 * Z.pos size - 1) <= z < 2 ^ (8 * Z.pos size - 1)
  | Integer size false => 0 <= z < 2 ^ (8 * Z.pos size)
  | FloatingPoint size => 0 <= z < 2 ^ (8 * Z.pos size)
  end.

(** The bytes the container operation stores for a vector of arithmetic
    elements: the count, the byte count as the [int] parameter receives it,
    and as many bytes of the elements as that [int] says. *)
Definition stored_vector (k : arithmetic) (val : list Z) : list ascii :=
  let bytes := to_int32 (Z.of_nat (length val) * Z.of_nat (sizeof k)) in
  image sizeof_int (to_uint32 (Z.of_nat (length val)))
  ++ image sizeof_int bytes
  ++ take (Z.to_nat bytes) (vector_data k val).

(** The encoding of the design document: count, byte count, elements. *)
Definition vector_wire (k : arithmetic) (val : list Z) : list ascii :=
  image sizeof_int (Z.of_nat (length val))
  ++ image sizeof_int (Z.of_nat (length val) * Z.of_nat (sizeof k))
  ++ vector_data k val.

Definition overflowing_wire : list ascii :=
  image sizeof_int 1073741824 ++ image sizeof_int 0.

(** Each element handed to [op] in turn, first to last, the archive left by
    one call being the archive of the next. *)
Fixpoint in_order {T} (op : FileArchive -> T -> outcome (FileArchive * T))
    (a : FileArchive) (val : list T) : outcome (FileArchive * list T) :=
  match val with
  | [] => Done (a, [])
  | x :: rest =>
      '(a1, x1) ← op a x;
      '(a2, rest1) ← in_order op a1 rest;
      Done (a2, x1 :: rest1)
  end.

(** The operations [FileArchive] implements, with their argument. *)
Inductive primitive :=
  | int_op (val : Z)
  | uint_op (val : Z)
  | string_op (val : list ascii)
  | buffer_op (data : list ascii) (bytes : Z).

Definition perform (a : FileArchive) (p : primitive)
  : outcome (FileArchive * primitive) :=
  match p with
  | int_op val => let '(a1, v) := op_int a val in Done (a1, int_op v)
  | uint_op val => let '(a1, v) := op_uint a val in Done (a1, uint_op v)
  | string_op val => '(a1, v) ← op_string a val; Done (a1, string_op v)
  | buffer_op data bytes =>
      '(a1, d) ← SerializeBuffer a data bytes; Done (a1, buffer_op d bytes)
  end.

Definition failed_archive (path : string) (m : Mode) : FileArchive :=
  {| mode_ := m; path_ := path; file_ := closed_stream |}.

(** [op] in Write mode stores [wire x] and leaves [x] as it is, for the
    values that fit. *)
Definition writes_as {T} (op : FileArchive -> T -> outcome (FileArchive * T))
    (wire : T -> list ascii) (fits : T -> Prop) : Prop :=
  forall a x, writer a -> fits x -> op a x = Done (put a (wire x), x).

(** [op] in Read mode, where [wire x] is pending, consumes it and turns a
    destination compatible with [x] into [back x]. *)
Definition reads_as {T} (op : FileArchive -> T -> outcome (FileArchive * T))
    (wire : T -> list ascii) (back : T -> T) (fits : T -> Prop)
    (compatible : T -> T -> Prop) : Prop :=
  forall a x y rest,
    reader a -> fits x -> compatible x y -> pending a = wire x ++ rest ->
    op a y = Done (skip a (length (wire x)), back x).

Definition any_destination {T} (x y : T) : Prop := True.

Definition composite_wire {T} (wire : T -> list ascii) (val : list T) : list ascii :=
  image sizeof_int (Z.of_nat (length val)) ++ concat (map wire val).

Definition composite_fits {T} (fits : T -> Prop) (val : list T) : Prop :=
  Z.of_nat (length val) <= INT_MAX /\ Forall fits val.

Definition text_fits (val : list ascii) : Prop :=
  Z.of_nat (length val) + 1 <= INT_MAX.

Definition plain_fits (k : arithmetic) (val : list Z) : Prop :=
  Forall (representable k) val
  /\ Z.of_nat (length val) * Z.of_nat (sizeof k) <= INT_MAX.

Fixpoint typed_wire (elem : ctype) : list (denote elem) -> list ascii :=
  match elem with
  | Arithmetic k => vector_wire k
  | StdString => composite_wire text_wire
  | StdVector e => composite_wire (typed_wire e)
  end.

Fixpoint typed_fits (elem : ctype) : list (denote elem) -> Prop :=
  match elem with
  | Arithmetic k => plain_fits k
  | StdString => composite_fits text_fits
  | StdVector e => composite_fits (typed_fits e)
  end.

(** A vector as it is read back: every string in it has gained the
    terminator. *)
Fixpoint typed_back (elem : ctype) : list (denote elem) -> list (denote elem) :=
  match elem with
  | Arithmetic k => fun val => val
  | StdString => map c_str
  | StdVector e => map (typed_back e)
  end.

(** The type of a member, which fixes the overload it is passed to. *)
Inductive field_type :=
  | int_member | uint_member | string_member | vector_member (elem : ctype).

Definition type_of (f : field) : field_type :=
  match f with
  | int_field _ => int_member
  | uint_field _ => uint_member
  | string_field _ => string_member
  | vector_field elem _ => vector_member elem
  end.

Definition same_type (f g : field) : Prop := type_of f = type_of g.

Definition field_fits (f : field) : Prop :=
  match f with
  | int_field val => - 2 ^ 31 <= val < 2 ^ 31
  | uint_field val => 0 <= val < 2 ^ 32
  | string_field val => text_fits val
  | vector_field elem val => typed_fits elem val
  end.

Definition field_wire (f : field) : list ascii :=
  match f with
  | int_field val => image sizeof_int val
  | uint_field val => image sizeof_int val
  | string_field val => text_wire val
  | vector_field elem val => typed_wire elem val
  end.

(** A member as it is read back: text has gained the terminator,
    everything else is as it was written. *)
Definition field_back (f : field) : field :=
  match f with
  | int_field val => int_field val
  | uint_field val => uint_field val
  | string_field val => string_field (c_str val)
  | vector_field elem val => vector_field elem (typed_back elem val)
  end.

Definition object_wire (obj : list field) : list ascii :=
  concat (map field_wire obj).

End Vocabulary.

(** ** Inputs used as examples *)

(** A vector of 2^30 [int]: its payload is 2^32 bytes, which the [int]
    parameter of [SerializeBuffer] receives as 0. *)
Definition giga : nat := Z.to_nat 1073741824.

(** One more element than an [int] index can count: 2^31 + 1. *)
Definition past_int_max : nat := Z.to_nat 2147483649.

Definition some_primitives {bo : byte_order} : list primitive :=
  [ int_op 2; uint_op 7; string_op (chars "Hello");
    buffer_op (vector_data t_int [1; 2; 3]) 12 ].

Definition huge_object : list field :=
  [vector_field (Arithmetic t_int) (replicate giga 1)].
Definition zeroed_object : list field :=
  [vector_field (Arithmetic t_int) (replicate giga 0)].
Definition two_copies : filesystem :=
  stored (stored empty_disk "hello.bin" (overflowing_wire (bo := LittleEndian)))
    "copy.bin" (overflowing_wire (bo := LittleEndian)).

(** ** Vocabulary of the further properties *)

(** A text of INT_MAX characters: with its terminator it has one byte
    more than an [int] can count. *)
Definition long_text : list ascii := replicate (Z.to_nat 2147483647) "a"%char.

(** [s'] is [s] written further: same file, bytes added at the end of its
    content and none changed, and no change at all once the stream is not
    good. *)
Definition appended (s s' : fstream) : Prop :=
  is_open s' = is_open s /\ gpos s' = gpos s
  /\ closings s' = closings s
  /\ (exists bytes, content s' = content s ++ bytes)
  /\ (failbit s = true -> s' = s).

(** [s'] is [s] read further: same file, same content, a position that did
    not move back, and no change at all once the stream is not good. *)
Definition advanced (s s' : fstream) : Prop :=
  is_open s' = is_open s /\ content s' = content s
  /\ closings s' = closings s /\ (gpos s <= gpos s')%nat
  /\ (failbit s = true -> s' = s).

(** What a call may have done to the archive it was given. *)
Definition follows (a a' : FileArchive) : Prop :=
  mode_ a' = mode_ a /\ path_ a' = path_ a
  /\ match mode_ a with
     | Write => appended (file_ a) (file_ a')
     | Read => advanced (file_ a) (file_ a')
     end.

Definition keeps {T} (op : FileArchive -> T -> outcome (FileArchive * T)) : Prop :=
  forall a x a' x', op a x = Done (a', x') -> follows a a'.

(** [op] in Write mode stops, if at all, on undefined behaviour only. *)
Definition write_stops_on_ub_only {T}
    (op : FileArchive -> T -> outcome (FileArchive * T)) : Prop :=
  forall a x f, IsWrite a = true -> op a x = Stop f -> f = UndefinedBehaviour.

(** A member after a read through an archive whose stream is not good:
    a vector has been resized to the count 0. *)
Definition emptied (f : field) : field :=
  match f with
  | vector_field elem _ => vector_field elem []
  | _ => f
  end.

(** What the element loops need of a vector: a vector of strings or of
    vectors has at most INT_MAX elements, at every depth, so that the [int]
    index reaches its end; the elements of a vector of arithmetic type are
    values of that type.  Texts and vectors of arithmetic type may have any
    length. *)
Fixpoint indexable (elem : ctype) : list (denote elem) -> Prop :=
  match elem with
  | Arithmetic k => Forall (representable k)
  | StdString => composite_fits (fun _ => True)
  | StdVector e => composite_fits (indexable e)
  end.

Definition field_indexable (f : field) : Prop :=
  match f with
  | vector_field elem val => indexable elem val
  | _ => True
  end.

(** Element types with no [std::string] at any depth. *)
Fixpoint text_free (elem : ctype) : bool :=
  match elem with
  | Arithmetic _ => true
  | StdString => false
  | StdVector e => text_free e
  end.

(** One save and load of a text through the file at [path]. *)
Definition text_cycle {bo : byte_order} (path : string)
    (st : filesystem * list ascii) : outcome (filesystem * list ascii) :=
  '(fs1, _) ← with_archive st.1 path Write (fun file => op_string file st.2);
  with_archive fs1 path Read (fun file => op_string file []).

Fixpoint text_cycles {bo : byte_order} (n : nat) (path : string)
    (st : filesystem * list ascii) : outcome (filesystem * list ascii) :=
  match n with
  | O => Done st
  | S m => st1 ← text_cycle path st; text_cycles m path st1
  end.

(** * Properties *)

(** ** Object representations *)

Lemma Z_of_byte_of_Z z : Z_of_byte (byte_of_Z z) = z mod 256.
Proof.
  unfold Z_of_byte, byte_of_Z.
  assert (0 <= z mod 256 < 256) by (apply Z.mod_pos_bound; lia).
  rewrite N_ascii_embedding by lia.
  lia.
Qed.

Lemma Z_of_byte_range c : 0 <= Z_of_byte c < 256.
Proof.
  unfold Z_of_byte. pose proof (N_ascii_bounded c). lia.
Qed.

Lemma byte_of_Z_of_byte c : byte_of_Z (Z_of_byte c) = c.
Proof.
  unfold byte_of_Z. rewrite Z.mod_small by apply Z_of_byte_range.
  unfold Z_of_byte. rewrite N2Z.id. apply ascii_N_embedding.
Qed.

Lemma le_bytes_length n z : length (le_bytes n z) = n.
Proof.
  revert z. induction n as [|n IH]; intros z; simpl; [reflexivity|].
  now rewrite IH.
Qed.

Lemma le_value_le_bytes n z : le_value (le_bytes n z) = z mod 2 ^ (8 * Z.of_nat n).
Proof.
  revert z. induction n as [|n IH]; intros z.
  - simpl. now rewrite Z.mod_1_r.
  - cbn [le_bytes le_value]. rewrite IH, Z_of_byte_of_Z.
    replace (8 * Z.of_nat (S n)) with (8 + 8 * Z.of_nat n) by lia.
    rewrite Z.pow_add_r by lia.
    change (2 ^ 8) with 256.
    rewrite (Z.mul_comm 256), Z.rem_mul_r by lia.
    lia.
Qed.

Lemma le_value_range l : 0 <= le_value l < 2 ^ (8 * Z.of_nat (length l)).
Proof.
  induction l as [|c r IH].
  - simpl. lia.
  - cbn [le_value length]. pose proof (Z_of_byte_range c).
    replace (8 * Z.of_nat (S (length r))) with (8 + 8 * Z.of_nat (length r)) by lia.
    rewrite Z.pow_add_r by lia. change (2 ^ 8) with 256. nia.
Qed.

Lemma le_bytes_le_value l : le_bytes (length l) (le_value l) = l.
Proof.
  induction l as [|c r IH]; [reflexivity|].
  cbn [length le_bytes le_value]. pose proof (Z_of_byte_range c).
  f_equal.
  - rewrite <- (byte_of_Z_of_byte c) at 2. unfold byte_of_Z. do 2 f_equal.
    Z.div_mod_to_equations. lia.
  - replace ((Z_of_byte c + 256 * le_value r) / 256) with (le_value r);
      [exact IH|].
    Z.div_mod_to_equations. lia.
Qed.

Section Images.
Context {bo : byte_order}.

Lemma in_memory_order_involutive l : in_memory_order (in_memory_order l) = l.
Proof. unfold in_memory_order. destruct bo; [reflexivity | apply rev_involutive]. Qed.

Lemma in_memory_order_length l : length (in_memory_order l) = length l.
Proof. unfold in_memory_order. destruct bo; [reflexivity | apply length_rev]. Qed.

Lemma image_length n z : length (image n z) = n.
Proof. unfold image. now rewrite in_memory_order_length, le_bytes_length. Qed.

Lemma unsigned_of_image_image n z :
  unsigned_of_image (image n z) = z mod 2 ^ (8 * Z.of_nat n).
Proof.
  unfold unsigned_of_image, image.
  now rewrite in_memory_order_involutive, le_value_le_bytes.
Qed.

Lemma unsigned_of_image_range l :
  0 <= unsigned_of_image l < 2 ^ (8 * Z.of_nat (length l)).
Proof.
  unfold unsigned_of_image. rewrite <- (in_memory_order_length l).
  apply le_value_range.
Qed.

Lemma image_unsigned_of_image l : image (length l) (unsigned_of_image l) = l.
Proof.
  unfold image, unsigned_of_image.
  rewrite <- (in_memory_order_length l), le_bytes_le_value.
  apply in_memory_order_involutive.
Qed.

Lemma to_int32_id v : - 2 ^ 31 <= v < 2 ^ 31 -> to_int32 v = v.
Proof.
  intros Hv. unfold to_int32, wrap_signed.
  change (2 ^ (32 - 1)) with 2147483648. change (2 ^ 32) with 4294967296.
  change (2 ^ 31) with 2147483648 in Hv.
  destruct (Z.ltb_spec (v mod 4294967296) 2147483648);
    Z.div_mod_to_equations; lia.
Qed.

Lemma to_uint32_id v : 0 <= v < 2 ^ 32 -> to_uint32 v = v.
Proof. intros Hv. apply Z.mod_small. exact Hv. Qed.

End Images.

(** ** Streams in good state *)

Lemma fstream_write_put s data n :
  failbit s = false -> 0 <= n ->
  fstream_write s data n = stream_put s (take (Z.to_nat n) data).
Proof.
  intros Hs Hn. unfold fstream_write. rewrite Hs.
  destruct (Z.ltb_spec n 0); [lia | reflexivity].
Qed.

Lemma fstream_write_negative s data n :
  failbit s = false -> n < 0 ->
  fstream_write s data n = stream_put_bad s [].
Proof.
  intros Hs Hn. unfold fstream_write. rewrite Hs.
  destruct (Z.ltb_spec n 0); [| lia].
  now rewrite Z2Nat.nonpos, take_0 by lia.
Qed.

Lemma fstream_write_whole s data n :
  failbit s = false -> n = Z.of_nat (length data) ->
  fstream_write s data n = stream_put s data.
Proof.
  intros Hs ->. rewrite fstream_write_put by (trivial; lia).
  now rewrite Nat2Z.id, firstn_all.
Qed.

Lemma fstream_read_whole s n dest bytes rest :
  failbit s = false ->
  drop (gpos s) (content s) = bytes ++ rest ->
  n = Z.of_nat (length bytes) ->
  fstream_read s n dest
  = (stream_skip s (length bytes), bytes ++ drop (length bytes) dest).
Proof.
  intros Hs Hc ->. unfold fstream_read. rewrite Hs, Hc, Nat2Z.id.
  rewrite take_app_length. unfold stream_skip.
  now rewrite Z.eqb_refl.
Qed.

Lemma stream_put_put s b1 b2 :
  stream_put (stream_put s b1) b2 = stream_put s (b1 ++ b2).
Proof. unfold stream_put. simpl. now rewrite <- app_assoc. Qed.

Lemma stream_skip_skip s n m :
  stream_skip (stream_skip s n) m = stream_skip s (n + m).
Proof. unfold stream_skip. simpl. now rewrite Nat.add_assoc. Qed.

Lemma put_put a b1 b2 : put (put a b1) b2 = put a (b1 ++ b2).
Proof. unfold put, with_file. simpl. now rewrite stream_put_put. Qed.

Lemma skip_skip a n m : skip (skip a n) m = skip a (n + m).
Proof. unfold skip, with_file. simpl. now rewrite stream_skip_skip. Qed.

Lemma put_nil a : writer a -> put a [] = a.
Proof.
  intros [_ Hf]. destruct a as [m p [o f c g k]]. simpl in Hf. subst f.
  unfold put, with_file, stream_put. simpl. now rewrite app_nil_r.
Qed.

Lemma skip_0 a : reader a -> skip a 0 = a.
Proof.
  intros [_ Hf]. destruct a as [m p [o f c g k]]. simpl in Hf. subst f.
  unfold skip, with_file, stream_skip. simpl. now rewrite Nat.add_0_r.
Qed.

Lemma writer_put a bytes : writer a -> writer (put a bytes).
Proof. intros [Hm _]. split; [exact Hm | reflexivity]. Qed.

Lemma reader_skip a n : reader a -> reader (skip a n).
Proof. intros [Hm _]. split; [exact Hm | reflexivity]. Qed.

Lemma pending_skip a n : pending (skip a n) = drop n (pending a).
Proof. unfold pending, skip. simpl. now rewrite drop_drop. Qed.

Lemma writer_valid a : writer a -> IsStreamValid a = true /\ IsWrite a = true.
Proof.
  intros [Hm Hf]. unfold IsStreamValid, IsWrite. now rewrite Hm, Hf.
Qed.

Lemma reader_valid a : reader a -> IsStreamValid a = true /\ IsWrite a = false.
Proof.
  intros [Hm Hf]. unfold IsStreamValid, IsWrite. now rewrite Hm, Hf.
Qed.

Section Scalars.
Context {bo : byte_order}.

Lemma op_int_write a v : writer a -> op_int a v = (put a (image sizeof_int v), v).
Proof.
  intros Ha. destruct (writer_valid a Ha) as [Hv Hw]. destruct Ha as [_ Hf].
  unfold op_int. rewrite Hv, Hw. simpl negb. cbv iota.
  rewrite fstream_write_whole; [reflexivity | exact Hf |].
  now rewrite image_length.
Qed.

Lemma op_uint_write a v : writer a -> op_uint a v = (put a (image sizeof_int v), v).
Proof.
  intros Ha. destruct (writer_valid a Ha) as [Hv Hw]. destruct Ha as [_ Hf].
  unfold op_uint. rewrite Hv, Hw. simpl negb. cbv iota.
  rewrite fstream_write_whole; [reflexivity | exact Hf |].
  now rewrite image_length.
Qed.

Lemma read_word a dest bytes rest :
  reader a -> pending a = bytes ++ rest -> length bytes = 4%nat ->
  length dest = 4%nat ->
  fstream_read (file_ a) 4 dest = (stream_skip (file_ a) 4, bytes).
Proof.
  intros [_ Hf] Hp Hb Hd.
  rewrite (fstream_read_whole _ _ _ bytes rest Hf Hp) by lia.
  rewrite Hb. rewrite drop_ge by lia. now rewrite app_nil_r.
Qed.

Lemma op_int_read a dest bytes rest :
  reader a -> pending a = bytes ++ rest -> length bytes = 4%nat ->
  op_int a dest = (skip a 4, int_of_image bytes).
Proof.
  intros Ha Hp Hb. destruct (reader_valid a Ha) as [Hv Hw].
  unfold op_int. rewrite Hv, Hw. simpl negb. cbv iota.
  rewrite (read_word a _ bytes rest Ha Hp Hb) by apply image_length.
  reflexivity.
Qed.

Lemma op_uint_read a dest bytes rest :
  reader a -> pending a = bytes ++ rest -> length bytes = 4%nat ->
  op_uint a dest = (skip a 4, uint_of_image bytes).
Proof.
  intros Ha Hp Hb. destruct (reader_valid a Ha) as [Hv Hw].
  unfold op_uint. rewrite Hv, Hw. simpl negb. cbv iota.
  rewrite (read_word a _ bytes rest Ha Hp Hb) by apply image_length.
  reflexivity.
Qed.

Lemma int_of_image_image v : int_of_image (image sizeof_int v) = to_int32 v.
Proof.
  unfold int_of_image. rewrite unsigned_of_image_image.
  unfold to_int32, wrap_signed. change (8 * Z.of_nat sizeof_int) with 32.
  now rewrite Z.mod_mod by lia.
Qed.

Lemma uint_of_image_image v : uint_of_image (image sizeof_int v) = to_uint32 v.
Proof.
  unfold uint_of_image. rewrite unsigned_of_image_image.
  unfold to_uint32, wrap_unsigned. change (8 * Z.of_nat sizeof_int) with 32.
  now rewrite Z.mod_mod by lia.
Qed.

End Scalars.

(** ** Scoped archives *)

Lemma writer_new path : writer (new_writer path).
Proof. split; reflexivity. Qed.

Lemma reader_new path c : reader (new_reader path c).
Proof. split; reflexivity. Qed.

Lemma pending_new path c : pending (new_reader path c) = c.
Proof. reflexivity. Qed.

Lemma ctor_write fs path :
  path ∉ denied fs ->
  FileArchive_ctor fs path Write = (stored fs path [], new_writer path).
Proof.
  intros Hp. unfold FileArchive_ctor, fstream_open.
  destruct (decide (path ∈ denied fs)) as [Hin|_]; [contradiction | reflexivity].
Qed.

Lemma ctor_read fs path c :
  files fs !! path = Some c ->
  FileArchive_ctor fs path Read = (fs, new_reader path c).
Proof.
  intros Hc. unfold FileArchive_ctor, fstream_open. now rewrite Hc.
Qed.

Lemma stored_stored fs path b1 b2 :
  stored (stored fs path b1) path b2 = stored fs path b2.
Proof. unfold stored. simpl. now rewrite insert_insert_eq. Qed.

Lemma stored_lookup fs path bytes : files (stored fs path bytes) !! path = Some bytes.
Proof. unfold stored. simpl. apply lookup_insert_eq. Qed.

Lemma stored_lookup_ne fs path path' bytes :
  path ≠ path' -> files (stored fs path bytes) !! path' = files fs !! path'.
Proof. intros Hne. unfold stored. simpl. now apply lookup_insert_ne. Qed.

Lemma dtor_writer fs path bytes :
  (FileArchive_dtor (stored fs path []) (put (new_writer path) bytes)).1
  = stored fs path bytes.
Proof.
  unfold FileArchive_dtor, dtor_body, close_effect. simpl.
  unfold stored. simpl. now rewrite insert_insert_eq.
Qed.

Lemma dtor_writer_bad fs path bytes :
  (FileArchive_dtor (stored fs path []) (put_bad (new_writer path) bytes)).1
  = stored fs path bytes.
Proof.
  unfold FileArchive_dtor, dtor_body, close_effect. simpl.
  unfold stored. simpl. now rewrite insert_insert_eq.
Qed.

Lemma dtor_reader fs a : mode_ a = Read -> (FileArchive_dtor fs a).1 = fs.
Proof.
  intros Hm. unfold FileArchive_dtor, dtor_body, close_effect, IsWrite.
  destruct (negb (IsStreamValid a)); simpl; rewrite Hm;
    now rewrite ?andb_false_r.
Qed.

Lemma with_archive_write {T} fs path (body : FileArchive -> outcome (FileArchive * T))
    bytes r :
  path ∉ denied fs ->
  body (new_writer path) = Done (put (new_writer path) bytes, r) ->
  with_archive fs path Write body = Done (stored fs path bytes, r).
Proof.
  intros Hp Hb. unfold with_archive. rewrite ctor_write by exact Hp.
  rewrite Hb. unfold mbind, outcome_bind. now rewrite dtor_writer.
Qed.

Lemma with_archive_write_bad {T} fs path
    (body : FileArchive -> outcome (FileArchive * T)) bytes r :
  path ∉ denied fs ->
  body (new_writer path) = Done (put_bad (new_writer path) bytes, r) ->
  with_archive fs path Write body = Done (stored fs path bytes, r).
Proof.
  intros Hp Hb. unfold with_archive. rewrite ctor_write by exact Hp.
  rewrite Hb. unfold mbind, outcome_bind. now rewrite dtor_writer_bad.
Qed.

Lemma with_archive_read {T} fs path c (body : FileArchive -> outcome (FileArchive * T))
    a r :
  files fs !! path = Some c ->
  body (new_reader path c) = Done (a, r) -> mode_ a = Read ->
  with_archive fs path Read body = Done (fs, r).
Proof.
  intros Hc Hb Hm. unfold with_archive. rewrite (ctor_read _ _ _ Hc).
  rewrite Hb. unfold mbind, outcome_bind. now rewrite dtor_reader.
Qed.

Section ScalarRoundTrip.
Context {bo : byte_order}.

(** C1.  Writing a 32-bit integer through a FileArchive in Write mode and
    reading the file back through a FileArchive in Read mode, into any
    variable, gives the integer back: the file holds the four bytes of its
    memory image and the variable read ends up with the same value.  Both
    for [int] (operator<<(int&)) and for [unsigned int]
    (operator<<(unsigned int&)). *)
Theorem scalar_round_trip (fs : filesystem) (path : string) (i u fresh : Z) :
  path ∉ denied fs ->
  - 2 ^ 31 <= i < 2 ^ 31 ->
  0 <= u < 2 ^ 32 ->
  (with_archive fs path Write (fun file => Done (op_int file i))
     = Done (stored fs path (image sizeof_int i), i) /\
   with_archive (stored fs path (image sizeof_int i)) path Read
       (fun file => Done (op_int file fresh))
     = Done (stored fs path (image sizeof_int i), i))
  /\
  (with_archive fs path Write (fun file => Done (op_uint file u))
     = Done (stored fs path (image sizeof_int u), u) /\
   with_archive (stored fs path (image sizeof_int u)) path Read
       (fun file => Done (op_uint file fresh))
     = Done (stored fs path (image sizeof_int u), u)).
Proof.
  intros Hp Hi Hu. split; split.
  - apply with_archive_write; [exact Hp|].
    now rewrite op_int_write by apply writer_new.
  - eapply with_archive_read.
    + apply stored_lookup.
    + rewrite (op_int_read _ _ (image sizeof_int i) []).
      * rewrite int_of_image_image, to_int32_id by exact Hi. reflexivity.
      * apply reader_new.
      * rewrite pending_new. now rewrite app_nil_r.
      * apply image_length.
    + reflexivity.
  - apply with_archive_write; [exact Hp|].
    now rewrite op_uint_write by apply writer_new.
  - eapply with_archive_read.
    + apply stored_lookup.
    + rewrite (op_uint_read _ _ (image sizeof_int u) []).
      * rewrite uint_of_image_image, to_uint32_id by exact Hu. reflexivity.
      * apply reader_new.
      * rewrite pending_new. now rewrite app_nil_r.
      * apply image_length.
    + reflexivity.
Qed.

End ScalarRoundTrip.

Lemma empty_disk_writable path : path ∉ denied empty_disk.
Proof. unfold empty_disk. simpl. set_solver. Qed.

Lemma scalar_round_trip_witness :
  (with_archive empty_disk "hello.bin" Write
     (fun file => Done (op_int (bo := LittleEndian) file (-2)))
     = Done (stored empty_disk "hello.bin" (image (bo := LittleEndian) sizeof_int (-2)), -2) /\
   with_archive (stored empty_disk "hello.bin" (image (bo := LittleEndian) sizeof_int (-2)))
     "hello.bin" Read (fun file => Done (op_int (bo := LittleEndian) file 7))
     = Done (stored empty_disk "hello.bin" (image (bo := LittleEndian) sizeof_int (-2)), -2))
  /\
  (with_archive empty_disk "hello.bin" Write
     (fun file => Done (op_uint (bo := LittleEndian) file 4000000000))
     = Done (stored empty_disk "hello.bin"
               (image (bo := LittleEndian) sizeof_int 4000000000), 4000000000) /\
   with_archive (stored empty_disk "hello.bin"
                   (image (bo := LittleEndian) sizeof_int 4000000000))
     "hello.bin" Read (fun file => Done (op_uint (bo := LittleEndian) file 7))
     = Done (stored empty_disk "hello.bin"
               (image (bo := LittleEndian) sizeof_int 4000000000), 4000000000)).
Proof.
  apply (scalar_round_trip (bo := LittleEndian) empty_disk "hello.bin" (-2) 4000000000 7).
  - apply empty_disk_writable.
  - lia.
  - lia.
Defined.

(** ** Text *)

Section Text.
Context {bo : byte_order}.

Lemma c_str_length val : length (c_str val) = S (length val).
Proof. unfold c_str. rewrite length_app. simpl. lia. Qed.

Lemma op_string_write a val :
  writer a -> Z.of_nat (length val) + 1 <= INT_MAX ->
  op_string a val = Done (put a (text_wire val), val).
Proof.
  intros Ha Hlen. destruct (writer_valid a Ha) as [Hv Hw]. destruct Ha as [Hm Hf].
  unfold INT_MAX in Hlen.
  unfold op_string. rewrite Hv, Hw. simpl negb. cbv iota.
  rewrite to_int32_id by lia.
  rewrite (fstream_write_whole (file_ a)); [| exact Hf | now rewrite image_length].
  rewrite fstream_write_whole; [| reflexivity | rewrite c_str_length; lia].
  rewrite stream_put_put. reflexivity.
Qed.

(** Reading where a length field [L] and [L] bytes are pending: the
    destination becomes exactly those [L] bytes. *)
Lemma op_string_read a dest bytes rest :
  reader a -> Z.of_nat (length bytes) <= INT_MAX ->
  pending a = image sizeof_int (Z.of_nat (length bytes)) ++ bytes ++ rest ->
  op_string a dest = Done (skip a (4 + length bytes), bytes).
Proof.
  intros Ha Hlen Hp. destruct (reader_valid a Ha) as [Hv Hw].
  unfold INT_MAX in Hlen.
  unfold op_string. rewrite Hv, Hw. simpl negb. cbv iota.
  rewrite (read_word a _ _ _ Ha Hp) by apply image_length.
  simpl failbit. cbv iota.
  rewrite int_of_image_image, to_int32_id by lia.
  destruct (Z.ltb_spec (Z.of_nat (length bytes)) 0) as [Hneg|_]; [lia|].
  rewrite Nat2Z.id.
  rewrite (fstream_read_whole _ _ _ bytes rest); [| reflexivity | | reflexivity].
  - rewrite drop_ge by (rewrite length_resize; lia).
    rewrite app_nil_r, stream_skip_skip. reflexivity.
  - change (drop (gpos (file_ a) + 4) (content (file_ a)) = bytes ++ rest).
    rewrite <- drop_drop. fold (pending a). rewrite Hp.
    rewrite drop_app_length'; [reflexivity | now rewrite image_length].
Qed.

Lemma text_wire_read a dest val rest :
  reader a -> Z.of_nat (length val) + 1 <= INT_MAX ->
  pending a = text_wire val ++ rest ->
  op_string a dest = Done (skip a (length (text_wire val)), c_str val).
Proof.
  intros Ha Hlen Hp.
  rewrite (op_string_read a dest (c_str val) rest Ha).
  - unfold text_wire. now rewrite length_app, image_length.
  - rewrite c_str_length. lia.
  - rewrite Hp. unfold text_wire. rewrite c_str_length, <- app_assoc.
    do 2 f_equal. lia.
Qed.

(** C2.  The string operation applied to "Hello" in Write mode stores a
    4-byte length field holding 6 followed by the 6 bytes 'H' 'e' 'l' 'l'
    'o' and the terminator; applied in Read mode to that file it leaves a
    string of length 6, the five characters followed by the terminator as
    its last character. *)
Theorem hello_text_encoding (fs : filesystem) (path : string) (fresh : list ascii) :
  path ∉ denied fs ->
  with_archive fs path Write (fun file => op_string file hello)
    = Done (stored fs path hello_wire, hello)
  /\ int_of_image (take 4 hello_wire) = 6
  /\ drop 4 hello_wire = chars "Hello" ++ [NUL]
  /\ with_archive (stored fs path hello_wire) path Read
       (fun file => op_string file fresh)
     = Done (stored fs path hello_wire, chars "Hello" ++ [NUL])
  /\ length (chars "Hello" ++ [NUL]) = 6%nat
  /\ last (chars "Hello" ++ [NUL]) = Some NUL.
Proof.
  intros Hp.
  assert (Hw : hello_wire = text_wire hello) by reflexivity.
  split; [| split; [| split; [| split; [| split]]]].
  - apply with_archive_write; [exact Hp|].
    rewrite op_string_write; [now rewrite Hw | apply writer_new |].
    unfold INT_MAX. simpl. lia.
  - unfold hello_wire. rewrite take_app_length' by now rewrite image_length.
    rewrite int_of_image_image. reflexivity.
  - unfold hello_wire. rewrite drop_app_length' by now rewrite image_length.
    reflexivity.
  - eapply with_archive_read.
    + apply stored_lookup.
    + rewrite (text_wire_read _ fresh hello []).
      * reflexivity.
      * apply reader_new.
      * unfold INT_MAX. simpl. lia.
      * rewrite pending_new, Hw. now rewrite app_nil_r.
    + reflexivity.
  - reflexivity.
  - reflexivity.
Qed.

End Text.

Lemma hello_text_encoding_witness :
  with_archive empty_disk "hello.bin" Write
    (fun file => op_string (bo := LittleEndian) file hello)
    = Done (stored empty_disk "hello.bin" (hello_wire (bo := LittleEndian)), hello)
  /\ int_of_image (bo := LittleEndian) (take 4 (hello_wire (bo := LittleEndian))) = 6
  /\ drop 4 (hello_wire (bo := LittleEndian)) = chars "Hello" ++ [NUL]
  /\ with_archive (stored empty_disk "hello.bin" (hello_wire (bo := LittleEndian)))
       "hello.bin" Read (fun file => op_string (bo := LittleEndian) file [])
     = Done (stored empty_disk "hello.bin" (hello_wire (bo := LittleEndian)),
             chars "Hello" ++ [NUL])
  /\ length (chars "Hello" ++ [NUL]) = 6%nat
  /\ last (chars "Hello" ++ [NUL]) = Some NUL.
Proof.
  apply (hello_text_encoding (bo := LittleEndian) empty_disk "hello.bin" []).
  apply empty_disk_writable.
Defined.

(** ** Narrowing conversions *)

Lemma to_int32_range z : - 2 ^ 31 <= to_int32 z < 2 ^ 31.
Proof.
  unfold to_int32, wrap_signed.
  change (2 ^ (32 - 1)) with 2147483648. change (2 ^ 32) with 4294967296.
  change (2 ^ 31) with 2147483648.
  destruct (Z.ltb_spec (z mod 4294967296) 2147483648);
    Z.div_mod_to_equations; lia.
Qed.

Lemma to_uint32_range z : 0 <= to_uint32 z < 2 ^ 32.
Proof. apply Z.mod_pos_bound. reflexivity. Qed.

Lemma to_int32_mod z : to_int32 (z mod 2 ^ 32) = to_int32 z.
Proof. unfold to_int32, wrap_signed. now rewrite Z.mod_mod. Qed.

(** The byte count computed from a count that went through an
    [unsigned int] is the one computed from the count itself. *)
Lemma to_int32_scaled n w : to_int32 (to_uint32 n * w) = to_int32 (n * w).
Proof.
  rewrite <- (to_int32_mod (to_uint32 n * w)), <- (to_int32_mod (n * w)).
  unfold to_uint32, wrap_unsigned. now rewrite Z.mul_mod_idemp_l.
Qed.

Lemma to_int32_nonneg_le z : 0 <= z -> to_int32 z <= z.
Proof.
  intros Hz. unfold to_int32, wrap_signed.
  change (2 ^ (32 - 1)) with 2147483648. change (2 ^ 32) with 4294967296.
  destruct (Z.ltb_spec (z mod 4294967296) 2147483648);
    Z.div_mod_to_equations; lia.
Qed.

Lemma wrap_signed_id bits z :
  0 < bits -> - 2 ^ (bits - 1) <= z < 2 ^ (bits - 1) -> wrap_signed bits z = z.
Proof.
  intros Hb Hz. unfold wrap_signed.
  assert (Hp : 2 ^ bits = 2 * 2 ^ (bits - 1)).
  { rewrite <- Z.pow_succ_r by lia. f_equal. lia. }
  assert (0 < 2 ^ (bits - 1)) by (apply Z.pow_pos_nonneg; lia).
  rewrite Hp.
  destruct (Z_lt_le_dec z 0) as [Hneg|Hpos].
  - rewrite <- (Z_mod_plus_full z 1), Z.mod_small by lia.
    destruct (Z.ltb_spec (z + 1 * (2 * 2 ^ (bits - 1))) (2 ^ (bits - 1))); lia.
  - rewrite Z.mod_small by lia.
    destruct (Z.ltb_spec z (2 ^ (bits - 1))); lia.
Qed.

Lemma wrap_signed_mod bits z : wrap_signed bits (z mod 2 ^ bits) = wrap_signed bits z.
Proof. unfold wrap_signed. now rewrite Zmod_mod. Qed.

(** ** Vectors of arithmetic elements *)

Section PlainVectors.
Context {bo : byte_order}.

Lemma of_image_image k z :
  representable k z -> of_image k (image (sizeof k) z) = z.
Proof.
  intros Hz. destruct k as [size [|]|size]; simpl in *;
    rewrite unsigned_of_image_image, positive_nat_Z.
  - rewrite wrap_signed_mod. apply wrap_signed_id; lia.
  - unfold wrap_unsigned. rewrite Zmod_mod. now apply Z.mod_small.
  - unfold wrap_unsigned. rewrite Zmod_mod. now apply Z.mod_small.
Qed.

Lemma representable_0 k : representable k 0.
Proof.
  destruct k as [size [|]|size]; simpl.
  - assert (0 < 2 ^ (8 * Z.pos size - 1)) by (apply Z.pow_pos_nonneg; lia). lia.
  - assert (0 < 2 ^ (8 * Z.pos size)) by (apply Z.pow_pos_nonneg; lia). lia.
  - assert (0 < 2 ^ (8 * Z.pos size)) by (apply Z.pow_pos_nonneg; lia). lia.
Qed.

Lemma vector_data_length k val :
  length (vector_data k val) = (length val * sizeof k)%nat.
Proof.
  unfold vector_data. induction val as [|x r IH]; [reflexivity|].
  cbn [map concat length]. rewrite length_app, image_length, IH. lia.
Qed.

Lemma vector_of_data_data k val rest :
  Forall (representable k) val ->
  vector_of_data k (length val) (vector_data k val ++ rest) = val.
Proof.
  unfold vector_data. induction 1 as [|x r Hx _ IH]; [reflexivity|].
  cbn [map concat length vector_of_data]. rewrite <- app_assoc.
  rewrite take_app_length', drop_app_length' by now rewrite image_length.
  now rewrite of_image_image, IH.
Qed.

Lemma vector_of_data_whole k val :
  Forall (representable k) val ->
  vector_of_data k (length val) (vector_data k val) = val.
Proof.
  intros Hval. rewrite <- (app_nil_r (vector_data k val)).
  now apply vector_of_data_data.
Qed.

End PlainVectors.

Section Buffers.
Context {bo : byte_order}.

Lemma with_file_with_file a s1 s2 : with_file (with_file a s1) s2 = with_file a s2.
Proof. reflexivity. Qed.

Lemma byte_count_fits (n w : Z) :
  0 <= n -> 0 <= w -> n * w <= INT_MAX -> 0 <= to_int32 (n * w).
Proof.
  unfold INT_MAX. intros Hn Hw Hb. rewrite to_int32_id by nia. nia.
Qed.

Lemma SerializeBuffer_write a data bytes :
  writer a -> 0 <= bytes ->
  SerializeBuffer a data bytes
  = Done (put a (image sizeof_int bytes ++ take (Z.to_nat bytes) data), data).
Proof.
  intros Ha Hb. destruct (writer_valid a Ha) as [Hv Hw]. destruct Ha as [_ Hf].
  unfold SerializeBuffer. rewrite Hv, Hw. simpl negb. cbv iota.
  rewrite (fstream_write_whole (file_ a)); [| exact Hf | now rewrite image_length].
  rewrite fstream_write_put by (trivial; reflexivity).
  now rewrite stream_put_put.
Qed.

Lemma stream_put_put_bad s b1 b2 :
  stream_put_bad (stream_put s b1) b2 = stream_put_bad s (b1 ++ b2).
Proof. unfold stream_put_bad, stream_put. simpl. now rewrite <- app_assoc. Qed.

(** A negative byte count: the count is stored, no byte of the block is,
    and the stream is no longer good. *)
Lemma SerializeBuffer_write_negative a data bytes :
  writer a -> bytes < 0 ->
  SerializeBuffer a data bytes
  = Done (put_bad a (image sizeof_int bytes ++ take (Z.to_nat bytes) data), data).
Proof.
  intros Ha Hb. destruct (writer_valid a Ha) as [Hv Hw]. destruct Ha as [_ Hf].
  unfold SerializeBuffer. rewrite Hv, Hw. simpl negb. cbv iota.
  rewrite (fstream_write_whole (file_ a)); [| exact Hf | now rewrite image_length].
  rewrite fstream_write_negative by (trivial; reflexivity).
  rewrite stream_put_put_bad.
  now rewrite Z2Nat.nonpos, take_0 by lia.
Qed.

(** Reading a buffer where a 4-byte field [word] is pending: the field is
    compared with the expected count before any payload byte is taken. *)
Lemma SerializeBuffer_read a data bytes word rest :
  reader a -> pending a = word ++ rest -> length word = 4%nat ->
  SerializeBuffer a data bytes
  = if int_of_image word =? bytes
    then Done (with_file a (fstream_read (stream_skip (file_ a) 4) bytes data).1,
               (fstream_read (stream_skip (file_ a) 4) bytes data).2)
    else Stop AssertionFailed.
Proof.
  intros Ha Hp Hword. destruct (reader_valid a Ha) as [Hv Hw].
  unfold SerializeBuffer. rewrite Hv, Hw. simpl negb. cbv iota.
  rewrite (read_word a _ word rest Ha Hp Hword) by apply image_length.
  destruct (int_of_image word =? bytes); [| reflexivity].
  now destruct (fstream_read (stream_skip (file_ a) 4) bytes data).
Qed.

Lemma vector_basic_write k a val :
  writer a ->
  0 <= to_int32 (Z.of_nat (length val) * Z.of_nat (sizeof k)) ->
  vector_basic k a val
  = Done (put a (stored_vector k val),
          vector_of_data k (length val) (vector_data k val)).
Proof.
  intros Ha Hb. unfold vector_basic. destruct (writer_valid a Ha) as [_ ->].
  rewrite op_uint_write by exact Ha.
  rewrite SerializeBuffer_write by (try apply writer_put; assumption).
  unfold mbind, outcome_bind. rewrite put_put. reflexivity.
Qed.

(** The same when the byte count wrapped to a negative [int]: the file
    gets the same bytes, and the stream is left not good. *)
Lemma vector_basic_write_negative k a val :
  writer a ->
  to_int32 (Z.of_nat (length val) * Z.of_nat (sizeof k)) < 0 ->
  vector_basic k a val
  = Done (put_bad a (stored_vector k val),
          vector_of_data k (length val) (vector_data k val)).
Proof.
  intros Ha Hb. unfold vector_basic. destruct (writer_valid a Ha) as [_ ->].
  rewrite op_uint_write by exact Ha.
  rewrite SerializeBuffer_write_negative by (try apply writer_put; assumption).
  unfold mbind, outcome_bind. unfold put_bad, put. simpl file_.
  rewrite stream_put_put_bad. reflexivity.
Qed.

Lemma stored_vector_wire k val :
  Z.of_nat (length val) * Z.of_nat (sizeof k) <= INT_MAX ->
  stored_vector k val = vector_wire k val.
Proof.
  unfold INT_MAX. intros Hb. unfold stored_vector, vector_wire.
  assert (0 < Z.of_nat (sizeof k)) by (destruct k; simpl; lia).
  rewrite to_int32_id by lia.
  rewrite to_uint32_id by nia.
  rewrite firstn_all2; [reflexivity|].
  rewrite vector_data_length. lia.
Qed.

Lemma vector_basic_read k a fresh c word rest :
  reader a -> 0 <= c < 2 ^ 32 -> length word = 4%nat ->
  pending a = image sizeof_int c ++ word ++ rest ->
  vector_basic k a fresh
  = let data := vector_data k (resize (Z.to_nat c) 0 fresh) in
    let bytes := to_int32 (c * Z.of_nat (sizeof k)) in
    if int_of_image word =? bytes
    then Done (with_file a (fstream_read (stream_skip (file_ a) 8) bytes data).1,
               vector_of_data k (Z.to_nat c)
                 (fstream_read (stream_skip (file_ a) 8) bytes data).2)
    else Stop AssertionFailed.
Proof.
  intros Ha Hc Hword Hp. unfold vector_basic.
  destruct (reader_valid a Ha) as [_ ->].
  rewrite (op_uint_read a 0 (image sizeof_int c) (word ++ rest) Ha Hp)
    by apply image_length.
  rewrite uint_of_image_image, to_uint32_id by exact Hc.
  rewrite length_resize, Z2Nat.id by lia.
  rewrite (SerializeBuffer_read (skip a 4) _ _ word rest).
  - cbv zeta. destruct (int_of_image word =? _); [| reflexivity].
    unfold mbind, outcome_bind. unfold skip at 1 2. simpl file_.
    rewrite stream_skip_skip. reflexivity.
  - now apply reader_skip.
  - rewrite pending_skip, Hp.
    rewrite drop_app_length'; [reflexivity | now rewrite image_length].
  - exact Hword.
Qed.

End Buffers.

Section PlainVectorTheorems.
Context {bo : byte_order}.

Lemma with_archive_stop {T} fs path m (body : FileArchive -> outcome (FileArchive * T)) f :
  body (FileArchive_ctor fs path m).2 = Stop f ->
  with_archive fs path m body = Stop f.
Proof.
  unfold with_archive. destruct (FileArchive_ctor fs path m) as [fs1 file].
  simpl. now intros ->.
Qed.

(** C7, as the code has it.  In Read mode, on a good stream, when the four
    bytes found where the byte count is stored do not hold the count the
    caller passes, the buffer operation stops the process at the assertion
    and takes no payload byte.  For the container operation the count
    passed is the number of elements read times the element size, as the
    [int] parameter receives it: reading a file whose byte count differs
    from that [int] stops the process and returns no container.  Whenever
    the number of elements times the element size is at most INT_MAX, that
    [int] is the product itself. *)
Theorem byte_count_mismatch_stops (k : arithmetic) (a : FileArchive)
    (word rest : list ascii) :
  reader a -> length word = 4%nat ->
  (forall data bytes,
     pending a = word ++ rest -> int_of_image word <> bytes ->
     SerializeBuffer a data bytes = Stop AssertionFailed)
  /\
  (forall fs path count fresh,
     files fs !! path = Some (image sizeof_int count ++ word ++ rest) ->
     0 <= count < 2 ^ 32 ->
     int_of_image word <> to_int32 (count * Z.of_nat (sizeof k)) ->
     with_archive fs path Read (fun file => vector_basic k file fresh)
     = Stop AssertionFailed)
  /\
  (forall fs path count fresh,
     files fs !! path = Some (image sizeof_int count ++ word ++ rest) ->
     0 <= count -> count * Z.of_nat (sizeof k) <= INT_MAX ->
     int_of_image word <> count * Z.of_nat (sizeof k) ->
     with_archive fs path Read (fun file => vector_basic k file fresh)
     = Stop AssertionFailed).
Proof.
  intros Ha Hword.
  assert (Hvector : forall fs path count fresh,
     files fs !! path = Some (image sizeof_int count ++ word ++ rest) ->
     0 <= count < 2 ^ 32 ->
     int_of_image word <> to_int32 (count * Z.of_nat (sizeof k)) ->
     with_archive fs path Read (fun file => vector_basic k file fresh)
     = Stop AssertionFailed); [| split; [| split; [exact Hvector |]]].
  - intros fs path count fresh Hfile Hc Hne.
    apply with_archive_stop. rewrite (ctor_read _ _ _ Hfile). simpl snd.
    rewrite (vector_basic_read k _ fresh count word rest);
      [| apply reader_new | exact Hc | exact Hword | apply pending_new].
    cbv zeta.
    destruct (Z.eqb_spec (int_of_image word) (to_int32 (count * Z.of_nat (sizeof k))));
      [contradiction | reflexivity].
  - intros data bytes Hp Hne.
    rewrite (SerializeBuffer_read a data bytes word rest Ha Hp Hword).
    destruct (Z.eqb_spec (int_of_image word) bytes); [contradiction | reflexivity].
  - intros fs path count fresh Hfile Hc Hmax Hne.
    assert (Hsize : 1 <= Z.of_nat (sizeof k)) by (destruct k; simpl; lia).
    unfold INT_MAX in Hmax.
    apply (Hvector fs path count fresh Hfile); [nia |].
    rewrite to_int32_id by nia. exact Hne.
Qed.

(** C10.  A file produced by the container operation for a vector of
    arithmetic elements, of any length, never fails the byte-count
    assertion when the same container type is read back: the byte count
    stored is the one computed from the count read, and the read returns. *)
Theorem written_vector_passes_check (k : arithmetic) (fs : filesystem)
    (path : string) (val fresh : list Z) :
  path ∉ denied fs ->
  exists val', 
    with_archive fs path Write (fun file => vector_basic k file val)
    = Done (stored fs path (stored_vector k val), val')
    /\ int_of_image (take 4 (drop 4 (stored_vector k val)))
       = to_int32 (uint_of_image (take 4 (stored_vector k val)) * Z.of_nat (sizeof k))
    /\ exists r,
         with_archive (stored fs path (stored_vector k val)) path Read
           (fun file => vector_basic k file fresh)
         = Done (stored fs path (stored_vector k val), r).
Proof.
  intros Hp.
  set (n := Z.of_nat (length val)).
  set (w := Z.of_nat (sizeof k)).
  assert (Hword : int_of_image (image sizeof_int (to_int32 (n * w)))
                  = to_int32 (to_uint32 n * w)).
  { rewrite int_of_image_image, to_int32_scaled.
    apply to_int32_id, to_int32_range. }
  exists (vector_of_data k (length val) (vector_data k val)).
  split; [| split].
  - destruct (Z_lt_le_dec (to_int32 (n * w)) 0) as [Hneg|Hpos].
    + apply with_archive_write_bad; [exact Hp|].
      apply vector_basic_write_negative; [apply writer_new | exact Hneg].
    + apply with_archive_write; [exact Hp|].
      apply vector_basic_write; [apply writer_new | exact Hpos].
  - unfold stored_vector. fold n w. cbv zeta.
    rewrite take_app_length' by now rewrite image_length.
    rewrite drop_app_length' by now rewrite image_length.
    rewrite take_app_length' by now rewrite image_length.
    rewrite uint_of_image_image, (to_uint32_id (to_uint32 n)) by apply to_uint32_range.
    exact Hword.
  - eexists. eapply with_archive_read.
    + apply stored_lookup.
    + rewrite (vector_basic_read k _ fresh (to_uint32 n)
                 (image sizeof_int (to_int32 (n * w)))
                 (take (Z.to_nat (to_int32 (n * w))) (vector_data k val)));
        [| apply reader_new | apply to_uint32_range | apply image_length
         | apply pending_new ].
      cbv zeta. fold w. rewrite Hword, Z.eqb_refl. reflexivity.
    + reflexivity.
Qed.

(** C3, as the code has it.  A vector of arithmetic elements whose payload,
    count times element size, fits the [int] that carries the byte count
    (at most INT_MAX bytes) is stored as count, byte count and raw element
    bytes, and reading that file into any vector of the same type gives a
    vector of the same length and element values, in the same order. *)
Theorem plain_vector_round_trip (k : arithmetic) (fs : filesystem)
    (path : string) (val fresh : list Z) :
  path ∉ denied fs ->
  Forall (representable k) val ->
  Z.of_nat (length val) * Z.of_nat (sizeof k) <= INT_MAX ->
  with_archive fs path Write (fun file => vector_basic k file val)
  = Done (stored fs path (vector_wire k val), val)
  /\ with_archive (stored fs path (vector_wire k val)) path Read
       (fun file => vector_basic k file fresh)
     = Done (stored fs path (vector_wire k val), val).
Proof.
  intros Hp Hval Hsize.
  assert (Hw : 0 < Z.of_nat (sizeof k)) by (destruct k; simpl; lia).
  assert (Hn : 0 <= Z.of_nat (length val) < 2 ^ 32) by (unfold INT_MAX in Hsize; nia).
  split.
  - apply with_archive_write; [exact Hp|].
    rewrite vector_basic_write
      by (try apply writer_new; apply byte_count_fits; lia).
    rewrite stored_vector_wire by exact Hsize.
    now rewrite vector_of_data_whole.
  - eapply with_archive_read; [apply stored_lookup | | ].
    + rewrite (vector_basic_read k _ fresh (Z.of_nat (length val))
                 (image sizeof_int (Z.of_nat (length val) * Z.of_nat (sizeof k)))
                 (vector_data k val));
        [| apply reader_new | exact Hn | apply image_length | apply pending_new ].
      cbv zeta. unfold INT_MAX in Hsize.
      rewrite int_of_image_image, !to_int32_id by lia.
      rewrite Z.eqb_refl, Nat2Z.id.
      rewrite (fstream_read_whole _ _ _ (vector_data k val) []).
      * simpl fst. simpl snd.
        rewrite drop_ge by (rewrite !vector_data_length, length_resize; lia).
        rewrite app_nil_r.
        rewrite vector_of_data_whole by exact Hval. reflexivity.
      * reflexivity.
      * rewrite app_nil_r. simpl. unfold vector_wire.
        change 8%nat with (4 + 4)%nat. rewrite <- drop_drop.
        rewrite drop_app_length' by now rewrite image_length.
        rewrite drop_app_length' by now rewrite image_length.
        reflexivity.
      * rewrite vector_data_length. lia.
    + reflexivity.
Qed.

End PlainVectorTheorems.

Lemma giga_size : Z.of_nat giga = 1073741824.
Proof. unfold giga. apply Z2Nat.id. lia. Qed.

Section Overflow.
Context {bo : byte_order}.

Lemma representable_int_1 : representable t_int 1.
Proof. unfold representable, t_int. simpl. lia. Qed.

Lemma overflowing_vector_write (n : nat) (fs : filesystem) (path : string) :
  Z.of_nat n = 1073741824 -> path ∉ denied fs ->
  with_archive fs path Write (fun file => vector_basic t_int file (replicate n 1))
  = Done (stored fs path overflowing_wire, replicate n 1).
Proof.
  intros Hn Hp.
  assert (Hwire : stored_vector t_int (replicate n 1) = overflowing_wire).
  { unfold stored_vector. rewrite length_replicate, Hn.
    change (to_uint32 1073741824) with 1073741824.
    change (to_int32 (1073741824 * Z.of_nat (sizeof t_int))) with 0.
    change (Z.to_nat 0) with 0%nat. rewrite take_0.
    unfold overflowing_wire. now rewrite app_nil_r. }
  apply with_archive_write; [exact Hp|].
  rewrite vector_basic_write; [| apply writer_new |].
  2:{ rewrite length_replicate, Hn. discriminate. }
  rewrite Hwire.
  rewrite vector_of_data_whole; [reflexivity|].
  apply Forall_replicate, representable_int_1.
Qed.

Lemma overflowing_vector_read (n : nat) (fs : filesystem) (path : string) :
  Z.of_nat n = 1073741824 -> files fs !! path = Some overflowing_wire ->
  with_archive fs path Read (fun file => vector_basic t_int file [])
  = Done (fs, replicate n 0).
Proof.
  intros Hn Hfile.
  eapply with_archive_read; [exact Hfile | |].
  - rewrite (vector_basic_read t_int _ [] 1073741824 (image sizeof_int 0) []);
      [| apply reader_new | lia | apply image_length
       | now rewrite pending_new, app_nil_r ].
    cbv zeta. rewrite int_of_image_image.
    change (to_int32 (1073741824 * Z.of_nat (sizeof t_int))) with 0.
    change (to_int32 0 =? 0) with true. cbv iota.
    rewrite <- Hn, Nat2Z.id. rewrite resize_nil.
    unfold fstream_read. simpl failbit. cbv iota.
    change (Z.to_nat 0) with 0%nat. rewrite take_0. simpl length.
    rewrite drop_0. cbn [fst snd app].
    pose proof (vector_of_data_whole t_int (replicate n 0)) as Hzero.
    rewrite length_replicate in Hzero.
    rewrite Hzero; [reflexivity|].
    apply Forall_replicate, representable_0.
  - reflexivity.
Qed.

End Overflow.

(** C3 as stated fails: a vector of 2^30 [int] equal to 1 is stored as the
    count and a byte count of 0 with no payload, and read back as 2^30
    elements equal to 0. *)
Lemma plain_vector_round_trip_counterexample :
  with_archive empty_disk "hello.bin" Write
    (fun file => vector_basic (bo := LittleEndian) t_int file (replicate giga 1))
  = Done (stored empty_disk "hello.bin" (overflowing_wire (bo := LittleEndian)),
          replicate giga 1)
  /\ with_archive
       (stored empty_disk "hello.bin" (overflowing_wire (bo := LittleEndian)))
       "hello.bin" Read
       (fun file => vector_basic (bo := LittleEndian) t_int file [])
     = Done (stored empty_disk "hello.bin" (overflowing_wire (bo := LittleEndian)),
             replicate giga 0)
  /\ replicate giga 1 !! 0%nat = Some 1
  /\ replicate giga 0 !! 0%nat = Some 0.
Proof.
  pose proof giga_size as Hn.
  split; [| split; [| split]].
  - apply overflowing_vector_write; [exact Hn | apply empty_disk_writable].
  - apply overflowing_vector_read; [exact Hn | apply stored_lookup].
  - apply lookup_replicate_2. lia.
  - apply lookup_replicate_2. lia.
Qed.

Lemma byte_count_mismatch_stops_witness :
  SerializeBuffer (bo := LittleEndian)
    (new_reader "hello.bin" (image (bo := LittleEndian) sizeof_int 5))
    (vector_data (bo := LittleEndian) t_int [0; 0; 0]) 12
  = Stop AssertionFailed
  /\ with_archive
       (stored empty_disk "hello.bin"
          (image (bo := LittleEndian) sizeof_int 3
           ++ image (bo := LittleEndian) sizeof_int 5 ++ []))
       "hello.bin" Read
       (fun file => vector_basic (bo := LittleEndian) t_int file [])
     = Stop AssertionFailed
  /\ with_archive
       (stored empty_disk "hello.bin"
          (image (bo := LittleEndian) sizeof_int 2
           ++ image (bo := LittleEndian) sizeof_int 5 ++ []))
       "hello.bin" Read
       (fun file => vector_basic (bo := LittleEndian) t_int file [7])
     = Stop AssertionFailed.
Proof.
  destruct (byte_count_mismatch_stops (bo := LittleEndian) t_int
              (new_reader "hello.bin" (image (bo := LittleEndian) sizeof_int 5))
              (image (bo := LittleEndian) sizeof_int 5) [])
    as (Hbuffer & Hvector & Hproduct).
  - split; reflexivity.
  - reflexivity.
  - split; [| split].
    + apply Hbuffer; [reflexivity | vm_compute; lia].
    + apply (Hvector _ "hello.bin"%string 3 []).
      * apply stored_lookup.
      * lia.
      * vm_compute. lia.
    + apply (Hproduct _ "hello.bin"%string 2 [7]).
      * apply stored_lookup.
      * lia.
      * vm_compute. discriminate.
      * vm_compute. lia.
Defined.

(** C7 as stated fails: in the file that holds the count 2^30 and the byte
    count 0, the byte count stored is not the number of elements times the
    element size, 2^32, and yet reading a vector of [int] from it passes
    the assertion and returns, with 2^30 elements equal to 0. *)
Lemma byte_count_mismatch_counterexample :
  uint_of_image (bo := LittleEndian)
    (take 4 (overflowing_wire (bo := LittleEndian))) = 1073741824
  /\ int_of_image (bo := LittleEndian)
       (take 4 (drop 4 (overflowing_wire (bo := LittleEndian)))) = 0
  /\ 1073741824 * Z.of_nat (sizeof t_int) = 4294967296
  /\ with_archive
       (stored empty_disk "hello.bin" (overflowing_wire (bo := LittleEndian)))
       "hello.bin" Read
       (fun file => vector_basic (bo := LittleEndian) t_int file [])
     = Done (stored empty_disk "hello.bin" (overflowing_wire (bo := LittleEndian)),
             replicate giga 0).
Proof.
  split; [vm_compute; reflexivity |].
  split; [vm_compute; reflexivity |].
  split; [reflexivity |].
  apply overflowing_vector_read; [apply giga_size | apply stored_lookup].
Qed.

Lemma written_vector_passes_check_witness :
  exists val',
    with_archive empty_disk "hello.bin" Write
      (fun file => vector_basic (bo := LittleEndian) t_int file [1; 2; 3])
    = Done (stored empty_disk "hello.bin"
              (stored_vector (bo := LittleEndian) t_int [1; 2; 3]), val')
    /\ int_of_image (bo := LittleEndian)
         (take 4 (drop 4 (stored_vector (bo := LittleEndian) t_int [1; 2; 3])))
       = to_int32
           (uint_of_image (bo := LittleEndian)
              (take 4 (stored_vector (bo := LittleEndian) t_int [1; 2; 3]))
            * Z.of_nat (sizeof t_int))
    /\ exists r,
         with_archive
           (stored empty_disk "hello.bin"
              (stored_vector (bo := LittleEndian) t_int [1; 2; 3]))
           "hello.bin" Read
           (fun file => vector_basic (bo := LittleEndian) t_int file [9])
         = Done (stored empty_disk "hello.bin"
                   (stored_vector (bo := LittleEndian) t_int [1; 2; 3]), r).
Proof.
  apply (written_vector_passes_check (bo := LittleEndian) t_int empty_disk
           "hello.bin" [1; 2; 3] [9]).
  apply empty_disk_writable.
Defined.

Lemma plain_vector_round_trip_witness :
  with_archive empty_disk "hello.bin" Write
    (fun file => vector_basic (bo := LittleEndian) t_int file [1; 2; 3])
  = Done (stored empty_disk "hello.bin"
            (vector_wire (bo := LittleEndian) t_int [1; 2; 3]), [1; 2; 3])
  /\ with_archive
       (stored empty_disk "hello.bin"
          (vector_wire (bo := LittleEndian) t_int [1; 2; 3]))
       "hello.bin" Read
       (fun file => vector_basic (bo := LittleEndian) t_int file [9])
     = Done (stored empty_disk "hello.bin"
               (vector_wire (bo := LittleEndian) t_int [1; 2; 3]), [1; 2; 3]).
Proof.
  apply (plain_vector_round_trip (bo := LittleEndian) t_int empty_disk
           "hello.bin" [1; 2; 3] [9]).
  - apply empty_disk_writable.
  - repeat (constructor; [unfold representable; simpl; lia|]).
    constructor.
  - vm_compute. discriminate.
Defined.

(** ** Vectors of composite elements *)

Section Loop.
Context {T : Type} (op : FileArchive -> T -> outcome (FileArchive * T)).

(** The index loop, started at [idx] with the elements before [idx] already
    processed, handles the remaining elements in order. *)
Lemma each_element_in_order (n idx : nat) (a : FileArchive) (val : list T) :
  (idx + n)%nat = length val -> Z.of_nat (length val) <= INT_MAX ->
  each_element op n (Z.of_nat idx) a val
  = '(a', rest) ← in_order op a (drop idx val); Done (a', take idx val ++ rest).
Proof.
  revert idx a val. induction n as [|n IH]; intros idx a val Hlen Hmax.
  - simpl. rewrite drop_ge, take_ge by lia. simpl. now rewrite app_nil_r.
  - cbn [each_element]. rewrite Nat2Z.id.
    destruct (lookup_lt_is_Some_2 val idx) as [x Hx]; [lia|].
    rewrite Hx. rewrite (drop_S _ _ _ Hx). cbn [in_order].
    destruct (op a x) as [[a1 x1]|f]; [| reflexivity].
    unfold mbind at 1 3, outcome_bind at 1 3. cbv beta iota.
    destruct (Z.ltb_spec (Z.of_nat idx) INT_MAX) as [_|Hge]; [| lia].
    replace (Z.of_nat idx + 1) with (Z.of_nat (S idx)) by lia.
    rewrite IH by (rewrite ?length_insert; lia).
    rewrite drop_insert_lt by lia.
    destruct (in_order op a1 (drop (S idx) val)) as [[a2 rest1]|f]; [| reflexivity].
    unfold mbind, outcome_bind. cbv beta iota.
    rewrite (take_S_r _ _ x1) by (apply list_lookup_insert_eq; lia).
    rewrite take_insert_ge by lia.
    now rewrite <- app_assoc.
Qed.

Lemma each_element_whole (a : FileArchive) (val : list T) :
  Z.of_nat (length val) <= INT_MAX ->
  each_element op (length val) 0 a val = in_order op a val.
Proof.
  intros Hmax. change 0 with (Z.of_nat 0).
  rewrite each_element_in_order by (simpl; lia).
  rewrite drop_0, take_0. simpl.
  destruct (in_order op a val) as [[a' rest]|f]; reflexivity.
Qed.

(** Past INT_MAX elements the increment of the [int] index overflows. *)
Lemma each_element_overflow (P : FileArchive -> Prop) :
  (forall a x, P a -> exists a' x', op a x = Done (a', x') /\ P a') ->
  forall (n idx : nat) a val,
    P a -> Z.of_nat idx <= INT_MAX -> INT_MAX < Z.of_nat (idx + n) ->
    (idx + n <= length val)%nat ->
    each_element op n (Z.of_nat idx) a val = Stop UndefinedBehaviour.
Proof.
  intros Hop. induction n as [|n IH]; intros idx a val Ha Hidx Hover Hlen.
  - lia.
  - cbn [each_element]. rewrite Nat2Z.id.
    destruct (lookup_lt_is_Some_2 val idx) as [x Hx]; [lia|].
    rewrite Hx.
    destruct (Hop a x Ha) as (a1 & x1 & -> & Ha1).
    unfold mbind, outcome_bind. cbv beta iota.
    destruct (Z.ltb_spec (Z.of_nat idx) INT_MAX) as [Hlt|_]; [| reflexivity].
    replace (Z.of_nat idx + 1) with (Z.of_nat (S idx)) by lia.
    apply IH; [exact Ha1 | lia | lia | rewrite length_insert; lia].
Qed.

End Loop.

Section CompositeVectors.
Context {bo : byte_order}.

Lemma vector_composite_write {T}
    (op : FileArchive -> T -> outcome (FileArchive * T)) (dflt : T)
    (a : FileArchive) (val : list T) :
  IsWrite a = true -> Z.of_nat (length val) <= INT_MAX ->
  vector_composite op dflt a val
  = in_order op (op_uint a (Z.of_nat (length val))).1 val.
Proof.
  intros Hw Hmax. unfold vector_composite. rewrite Hw.
  unfold INT_MAX in Hmax.
  rewrite to_uint32_id by lia. rewrite Nat2Z.id.
  destruct (op_uint a (Z.of_nat (length val))) as [a1 size]. simpl fst.
  apply each_element_whole. unfold INT_MAX. lia.
Qed.

Lemma vector_composite_read {T}
    (op : FileArchive -> T -> outcome (FileArchive * T)) (dflt : T)
    (a : FileArchive) (val : list T) :
  IsWrite a = false -> (op_uint a 0).2 <= INT_MAX ->
  vector_composite op dflt a val
  = in_order op (op_uint a 0).1 (resize (Z.to_nat (op_uint a 0).2) dflt val).
Proof.
  intros Hw Hmax. unfold vector_composite. rewrite Hw.
  destruct (op_uint a 0) as [a1 size]. simpl fst. simpl snd in *.
  rewrite <- (length_resize val (Z.to_nat size) dflt) at 1.
  apply each_element_whole. rewrite length_resize.
  unfold INT_MAX in *. lia.
Qed.

(** C4, as the code has it.  For a vector of composite elements of at most
    INT_MAX elements, the container operation in Write mode passes the
    element count to the [unsigned int] operation and then passes each
    element to the element operation, in index order, through the same
    archive.  In Read mode it passes a count to the [unsigned int]
    operation and, when the count obtained is at most INT_MAX, resizes the
    vector to that count and passes each element to the element operation
    in the same index order. *)
Theorem composite_vector_in_order {T}
    (op : FileArchive -> T -> outcome (FileArchive * T)) (dflt : T)
    (a : FileArchive) (val : list T) :
  (IsWrite a = true -> Z.of_nat (length val) <= INT_MAX ->
   vector_composite op dflt a val
   = in_order op (op_uint a (Z.of_nat (length val))).1 val)
  /\
  (IsWrite a = false -> (op_uint a 0).2 <= INT_MAX ->
   vector_composite op dflt a val
   = in_order op (op_uint a 0).1 (resize (Z.to_nat (op_uint a 0).2) dflt val)).
Proof.
  split.
  - intros Hw Hmax. now apply vector_composite_write.
  - intros Hw Hmax. now apply vector_composite_read.
Qed.

Lemma op_string_writes a x :
  mode_ a = Write -> exists a' x', op_string a x = Done (a', x') /\ mode_ a' = Write.
Proof.
  intros Hm. unfold op_string, IsWrite. rewrite Hm.
  destruct (negb (IsStreamValid a)); eexists _, _; (split; [reflexivity | exact Hm]).
Qed.

Lemma overlong_vector (n : nat) (fs : filesystem) (path : string) :
  INT_MAX < Z.of_nat n < 2 ^ 32 -> path ∉ denied fs ->
  with_archive fs path Write
    (fun file => vector_composite op_string [] file (replicate n []))
  = Stop UndefinedBehaviour.
Proof.
  intros Hn Hp. apply with_archive_stop. rewrite ctor_write by exact Hp.
  simpl snd. unfold vector_composite. simpl IsWrite. cbv iota.
  rewrite length_replicate, to_uint32_id by lia.
  rewrite op_uint_write by apply writer_new.
  rewrite Nat2Z.id. change 0 with (Z.of_nat 0).
  apply (each_element_overflow op_string (fun a => mode_ a = Write)).
  - apply op_string_writes.
  - reflexivity.
  - unfold INT_MAX. simpl. lia.
  - simpl. lia.
  - rewrite length_replicate. lia.
Qed.

End CompositeVectors.

Lemma past_int_max_size : Z.of_nat past_int_max = 2147483649.
Proof. unfold past_int_max. apply Z2Nat.id. lia. Qed.

(** C4 as stated fails: for a vector of 2^31 + 1 (empty) strings the index
    of the loop, an [int], is incremented past INT_MAX before the last
    elements are reached. *)
Lemma composite_vector_counterexample :
  with_archive empty_disk "hello.bin" Write
    (fun file => vector_composite (bo := LittleEndian) (op_string (bo := LittleEndian)) [] file
                   (replicate past_int_max []))
  = Stop UndefinedBehaviour.
Proof.
  apply (overlong_vector (bo := LittleEndian) past_int_max empty_disk "hello.bin").
  - rewrite past_int_max_size. unfold INT_MAX. lia.
  - apply empty_disk_writable.
Qed.

Lemma composite_vector_in_order_witness :
  vector_composite (bo := LittleEndian) (op_string (bo := LittleEndian)) []
    (new_writer "hello.bin") [chars "a"; chars "bc"]
  = in_order (op_string (bo := LittleEndian))
      (op_uint (bo := LittleEndian) (new_writer "hello.bin") 2).1
      [chars "a"; chars "bc"]
  /\
  vector_composite (bo := LittleEndian) (op_string (bo := LittleEndian)) []
    (new_reader "hello.bin" (image (bo := LittleEndian) sizeof_int 1
                             ++ text_wire (bo := LittleEndian) (chars "a")))
    [chars "x"; chars "y"; chars "z"]
  = in_order (op_string (bo := LittleEndian))
      (skip (new_reader "hello.bin"
               (image (bo := LittleEndian) sizeof_int 1
                ++ text_wire (bo := LittleEndian) (chars "a"))) 4)
      [chars "x"].
Proof.
  split.
  - apply (composite_vector_in_order (bo := LittleEndian)
             (op_string (bo := LittleEndian)) []
             (new_writer "hello.bin") [chars "a"; chars "bc"]).
    + reflexivity.
    + vm_compute. discriminate.
  - apply (composite_vector_in_order (bo := LittleEndian)
             (op_string (bo := LittleEndian)) []
             (new_reader "hello.bin"
                (image (bo := LittleEndian) sizeof_int 1
                 ++ text_wire (bo := LittleEndian) (chars "a")))
             [chars "x"; chars "y"; chars "z"]).
    + reflexivity.
    + vm_compute. discriminate.
Defined.

(** ** A stream that failed to open *)

Lemma ctor_failed fs path m :
  IsStreamValid (FileArchive_ctor fs path m).2 = false ->
  FileArchive_ctor fs path m = (fs, failed_archive path m).
Proof.
  unfold FileArchive_ctor, fstream_open. destruct m.
  - destruct (decide (path ∈ denied fs)); [reflexivity | discriminate].
  - destruct (files fs !! path); [discriminate | reflexivity].
Qed.

Lemma dtor_not_open fs a : is_open (file_ a) = false -> (FileArchive_dtor fs a).1 = fs.
Proof.
  intros Ho. unfold FileArchive_dtor, dtor_body, close_effect.
  destruct (negb (IsStreamValid a)); simpl; rewrite ?Ho; reflexivity.
Qed.

Section FailedOpen.
Context {bo : byte_order}.

Lemma perform_invalid a p : IsStreamValid a = false -> perform a p = Done (a, p).
Proof.
  intros Hv. destruct p; simpl;
    unfold op_int, op_uint, op_string, SerializeBuffer; now rewrite Hv.
Qed.

Lemma in_order_invalid a ps :
  IsStreamValid a = false -> in_order perform a ps = Done (a, ps).
Proof.
  intros Hv. induction ps as [|p ps IH]; [reflexivity|].
  cbn [in_order]. rewrite perform_invalid by exact Hv.
  unfold mbind at 1, outcome_bind at 1. cbv beta iota.
  now rewrite IH.
Qed.

(** C6.  When the stream of a FileArchive failed to open, each of the
    [int], [unsigned int], string and buffer operations returns with the
    archive and its argument unchanged and no failure; so does any
    sequence of them, and after the archive is destroyed the file system
    is the one before construction: nothing was written or read. *)
Theorem failed_open_is_silent (fs : filesystem) (path : string) (m : Mode)
    (ps : list primitive) :
  IsStreamValid (FileArchive_ctor fs path m).2 = false ->
  (forall val, op_int (FileArchive_ctor fs path m).2 val
               = ((FileArchive_ctor fs path m).2, val))
  /\ (forall val, op_uint (FileArchive_ctor fs path m).2 val
                  = ((FileArchive_ctor fs path m).2, val))
  /\ (forall val, op_string (FileArchive_ctor fs path m).2 val
                  = Done ((FileArchive_ctor fs path m).2, val))
  /\ (forall data bytes, SerializeBuffer (FileArchive_ctor fs path m).2 data bytes
                         = Done ((FileArchive_ctor fs path m).2, data))
  /\ in_order perform (FileArchive_ctor fs path m).2 ps
     = Done ((FileArchive_ctor fs path m).2, ps)
  /\ with_archive fs path m (fun file => in_order perform file ps) = Done (fs, ps).
Proof.
  intros Hv.
  repeat split.
  - intros val. unfold op_int. now rewrite Hv.
  - intros val. unfold op_uint. now rewrite Hv.
  - intros val. unfold op_string. now rewrite Hv.
  - intros data bytes. unfold SerializeBuffer. now rewrite Hv.
  - now apply in_order_invalid.
  - unfold with_archive. rewrite (ctor_failed fs path m Hv).
    rewrite in_order_invalid by reflexivity.
    unfold mbind, outcome_bind. now rewrite dtor_not_open.
Qed.

End FailedOpen.

Lemma failed_open_is_silent_witness :
  (forall val, op_int (bo := LittleEndian)
                 (FileArchive_ctor empty_disk "hello.bin" Read).2 val
               = ((FileArchive_ctor empty_disk "hello.bin" Read).2, val))
  /\ (forall val, op_uint (bo := LittleEndian)
                    (FileArchive_ctor empty_disk "hello.bin" Read).2 val
                  = ((FileArchive_ctor empty_disk "hello.bin" Read).2, val))
  /\ (forall val, op_string (bo := LittleEndian)
                    (FileArchive_ctor empty_disk "hello.bin" Read).2 val
                  = Done ((FileArchive_ctor empty_disk "hello.bin" Read).2, val))
  /\ (forall data bytes,
        SerializeBuffer (bo := LittleEndian)
          (FileArchive_ctor empty_disk "hello.bin" Read).2 data bytes
        = Done ((FileArchive_ctor empty_disk "hello.bin" Read).2, data))
  /\ in_order (perform (bo := LittleEndian))
       (FileArchive_ctor empty_disk "hello.bin" Read).2
       (some_primitives (bo := LittleEndian))
     = Done ((FileArchive_ctor empty_disk "hello.bin" Read).2,
             some_primitives (bo := LittleEndian))
  /\ with_archive empty_disk "hello.bin" Read
       (fun file => in_order (perform (bo := LittleEndian)) file
                      (some_primitives (bo := LittleEndian)))
     = Done (empty_disk, some_primitives (bo := LittleEndian)).
Proof.
  apply (failed_open_is_silent (bo := LittleEndian) empty_disk "hello.bin" Read
           (some_primitives (bo := LittleEndian))).
  reflexivity.
Defined.

(** ** Destruction of the archive *)

(** Whatever the state of the stream, the file is no longer open once the
    archive is destroyed: the stream member closes it when the body of the
    destructor did not. *)
Lemma dtor_releases_file fs a : is_open (file_ (FileArchive_dtor fs a).2) = false.
Proof.
  unfold FileArchive_dtor, dtor_body. now destruct (negb (IsStreamValid a)).
Qed.


(** ** Encodings of whole values *)

Section Sequences.
Context {T : Type} (op : FileArchive -> T -> outcome (FileArchive * T)).
Context (wire : T -> list ascii) (back : T -> T) (fits : T -> Prop).
Context (compatible : T -> T -> Prop).

Lemma in_order_writes :
  writes_as op wire fits ->
  forall val a, writer a -> Forall fits val ->
    in_order op a val = Done (put a (concat (map wire val)), val).
Proof.
  intros Hop. induction val as [|x val IH]; intros a Ha Hfits.
  - simpl. now rewrite put_nil.
  - apply Forall_cons in Hfits as [Hx Hval]. cbn [in_order map concat].
    rewrite (Hop a x Ha Hx). unfold mbind at 1, outcome_bind at 1. cbv beta iota.
    rewrite IH by (try apply writer_put; assumption).
    unfold mbind, outcome_bind. now rewrite put_put.
Qed.

Lemma in_order_reads :
  reads_as op wire back fits compatible ->
  forall xs ys a rest, reader a -> Forall fits xs -> Forall2 compatible xs ys ->
    pending a = concat (map wire xs) ++ rest ->
    in_order op a ys = Done (skip a (length (concat (map wire xs))), map back xs).
Proof.
  intros Hop. induction xs as [|x xs IH]; intros ys a rest Ha Hfits Hc Hp.
  - apply Forall2_nil_inv_l in Hc. subst ys. simpl. now rewrite skip_0.
  - apply Forall2_cons_inv_l in Hc as (y & ys' & Hxy & Hc & ->).
    apply Forall_cons in Hfits as [Hx Hxs].
    cbn [map concat] in Hp. rewrite <- app_assoc in Hp.
    cbn [in_order map concat].
    rewrite (Hop a x y _ Ha Hx Hxy Hp).
    unfold mbind at 1, outcome_bind at 1. cbv beta iota.
    rewrite (IH ys' _ rest); [| now apply reader_skip | exact Hxs | exact Hc |].
    + unfold mbind, outcome_bind. now rewrite skip_skip, length_app.
    + rewrite pending_skip, Hp. now rewrite drop_app_length.
Qed.

End Sequences.

Section CompositeEncoding.
Context {bo : byte_order} {T : Type}.
Context (op : FileArchive -> T -> outcome (FileArchive * T)) (dflt : T).
Context (wire : T -> list ascii) (back : T -> T) (fits : T -> Prop).

Lemma vector_composite_writes :
  writes_as op wire fits ->
  writes_as (vector_composite op dflt) (composite_wire wire) (composite_fits fits).
Proof.
  intros Hop a val Ha [Hlen Hfits].
  rewrite vector_composite_write; [| apply (writer_valid a Ha) | exact Hlen].
  rewrite op_uint_write by exact Ha. simpl fst.
  rewrite (in_order_writes op wire fits Hop) by (try apply writer_put; assumption).
  unfold composite_wire. now rewrite put_put.
Qed.

Lemma vector_composite_reads :
  reads_as op wire back fits any_destination ->
  reads_as (vector_composite op dflt) (composite_wire wire) (map back)
    (composite_fits fits) any_destination.
Proof.
  intros Hop a xs ys rest Ha [Hlen Hfits] _ Hp.
  unfold composite_wire in Hp. rewrite <- app_assoc in Hp.
  assert (Hcount : op_uint a 0 = (skip a 4, Z.of_nat (length xs))).
  { rewrite (op_uint_read a 0 _ _ Ha Hp) by apply image_length.
    rewrite uint_of_image_image, to_uint32_id; [reflexivity|].
    unfold INT_MAX in Hlen. lia. }
  rewrite vector_composite_read; [| apply (reader_valid a Ha) | now rewrite Hcount].
  rewrite Hcount. simpl fst. simpl snd. rewrite Nat2Z.id.
  rewrite (in_order_reads op wire back fits any_destination Hop xs _ _ rest).
  - unfold composite_wire. now rewrite skip_skip, length_app, image_length.
  - now apply reader_skip.
  - exact Hfits.
  - apply Forall2_true; [done|]. now rewrite length_resize.
  - rewrite pending_skip, Hp.
    rewrite drop_app_length'; [reflexivity | now rewrite image_length].
Qed.

End CompositeEncoding.

(** ** Encodings of typed values and of objects *)

Section TypedEncoding.
Context {bo : byte_order}.

Lemma op_string_writes_as : writes_as op_string text_wire text_fits.
Proof. intros a x Ha Hx. now apply op_string_write. Qed.

Lemma op_string_reads_as :
  reads_as op_string text_wire c_str text_fits any_destination.
Proof. intros a x y rest Ha Hx _ Hp. now apply (text_wire_read a y x rest). Qed.

Lemma vector_basic_writes_as k : writes_as (vector_basic k) (vector_wire k) (plain_fits k).
Proof.
  intros a val Ha [Hval Hsize].
  rewrite vector_basic_write by (try exact Ha; apply byte_count_fits; lia).
  rewrite stored_vector_wire by exact Hsize.
  now rewrite vector_of_data_whole.
Qed.

Lemma vector_basic_reads_as k :
  reads_as (vector_basic k) (vector_wire k) (fun val => val) (plain_fits k)
    any_destination.
Proof.
  intros a val fresh rest Ha [Hval Hsize] _ Hp.
  assert (Hw : 0 < Z.of_nat (sizeof k)) by (destruct k; simpl; lia).
  unfold INT_MAX in Hsize.
  unfold vector_wire in Hp. rewrite <- !app_assoc in Hp.
  rewrite (vector_basic_read k a fresh (Z.of_nat (length val))
             (image sizeof_int (Z.of_nat (length val) * Z.of_nat (sizeof k)))
             (vector_data k val ++ rest) Ha);
    [| nia | apply image_length | exact Hp].
  cbv zeta.
  rewrite int_of_image_image, !to_int32_id by lia.
  rewrite Z.eqb_refl, Nat2Z.id.
  rewrite (fstream_read_whole _ _ _ (vector_data k val) rest).
  - simpl fst. simpl snd.
    rewrite drop_ge by (rewrite !vector_data_length, length_resize; lia).
    rewrite app_nil_r, vector_of_data_whole by exact Hval.
    unfold skip, vector_wire. rewrite stream_skip_skip.
    rewrite !length_app, !image_length. reflexivity.
  - reflexivity.
  - change (drop (gpos (file_ a) + 8) (content (file_ a)) = vector_data k val ++ rest).
    rewrite <- drop_drop. fold (pending a). rewrite Hp.
    change 8%nat with (4 + 4)%nat. rewrite <- drop_drop.
    rewrite drop_app_length' by now rewrite image_length.
    rewrite drop_app_length' by now rewrite image_length.
    reflexivity.
  - rewrite vector_data_length. lia.
Qed.

Lemma vector_op_writes_as elem :
  writes_as (vector_op elem) (typed_wire elem) (typed_fits elem).
Proof.
  induction elem as [k| |e IH]; cbn [vector_op typed_wire typed_fits].
  - apply vector_basic_writes_as.
  - apply vector_composite_writes, op_string_writes_as.
  - apply vector_composite_writes, IH.
Qed.

Lemma vector_op_reads_as elem :
  reads_as (vector_op elem) (typed_wire elem) (typed_back elem) (typed_fits elem)
    any_destination.
Proof.
  induction elem as [k| |e IH]; cbn [vector_op typed_wire typed_fits typed_back].
  - apply vector_basic_reads_as.
  - apply vector_composite_reads, op_string_reads_as.
  - apply vector_composite_reads, IH.
Qed.

End TypedEncoding.

Section ObjectEncoding.
Context {bo : byte_order}.

Lemma serialize_field_writes_as : writes_as serialize_field field_wire field_fits.
Proof.
  intros a f Ha Hf. destruct f as [v|v|v|elem v]; simpl in *.
  - now rewrite op_int_write.
  - now rewrite op_uint_write.
  - now rewrite op_string_write.
  - now rewrite (vector_op_writes_as elem a v Ha Hf).
Qed.

Lemma serialize_field_reads_as :
  reads_as serialize_field field_wire field_back field_fits same_type.
Proof.
  intros a f g rest Ha Hf Hty Hp. unfold same_type in Hty.
  destruct f as [v|v|v|elem v]; destruct g as [w|w|w|elem' w];
    try discriminate Hty; simpl in *.
  - rewrite (op_int_read a w _ _ Ha Hp) by apply image_length.
    now rewrite int_of_image_image, to_int32_id, image_length.
  - rewrite (op_uint_read a w _ _ Ha Hp) by apply image_length.
    now rewrite uint_of_image_image, to_uint32_id, image_length.
  - now rewrite (text_wire_read a w v rest Ha Hf Hp).
  - injection Hty as <-.
    now rewrite (vector_op_reads_as elem a v w rest Ha Hf I Hp).
Qed.

Lemma serialize_members_in_order a obj :
  serialize_members a obj = in_order serialize_field a obj.
Proof.
  revert a. induction obj as [|f obj IH]; intros a; [reflexivity|].
  cbn [serialize_members in_order].
  destruct (serialize_field a f) as [[a1 f1]|e]; [| reflexivity].
  unfold mbind at 1 3, outcome_bind at 1 3. cbv beta iota. now rewrite IH.
Qed.

Lemma SerializeToFile_members fs obj path :
  path ∉ denied fs -> Forall field_fits obj ->
  SerializeToFile fs obj path = Done (stored fs path (object_wire obj), obj).
Proof.
  intros Hp Hobj. unfold SerializeToFile.
  apply with_archive_write; [exact Hp|].
  unfold Serialize, members_serializable.
  rewrite serialize_members_in_order.
  apply (in_order_writes _ _ _ serialize_field_writes_as);
    [apply writer_new | exact Hobj].
Qed.

Lemma SerializeFromFile_members fs obj fresh path :
  files fs !! path = Some (object_wire obj) ->
  Forall field_fits obj -> Forall2 same_type obj fresh ->
  SerializeFromFile fs fresh path = Done (fs, map field_back obj).
Proof.
  intros Hfile Hobj Hfresh. unfold SerializeFromFile.
  eapply with_archive_read; [exact Hfile | |].
  - unfold Serialize, members_serializable.
    rewrite serialize_members_in_order.
    apply (in_order_reads _ _ _ _ _ serialize_field_reads_as obj fresh _ []);
      [apply reader_new | exact Hobj | exact Hfresh |].
    now rewrite pending_new, app_nil_r.
  - reflexivity.
Qed.

(** C9, as the code has it.  An object whose members fit the 32-bit
    fields of the format (every string shorter than INT_MAX characters,
    every vector of arithmetic elements of at most INT_MAX bytes, every
    other vector of at most INT_MAX elements) is serialized to two
    different writable paths; deserializing each file into an object of
    the same type yields the same object both times: the original one with
    the terminator appended to every string, and everything else equal. *)
Theorem same_object_two_files (fs : filesystem) (path1 path2 : string)
    (obj fresh1 fresh2 : list field) :
  path1 ∉ denied fs -> path2 ∉ denied fs -> path1 <> path2 ->
  Forall field_fits obj ->
  Forall2 same_type obj fresh1 -> Forall2 same_type obj fresh2 ->
  exists fs1 fs2,
    SerializeToFile fs obj path1 = Done (fs1, obj)
    /\ SerializeToFile fs1 obj path2 = Done (fs2, obj)
    /\ SerializeFromFile fs2 fresh1 path1 = Done (fs2, map field_back obj)
    /\ SerializeFromFile fs2 fresh2 path2 = Done (fs2, map field_back obj).
Proof.
  intros Hp1 Hp2 Hne Hobj Hf1 Hf2.
  exists (stored fs path1 (object_wire obj)).
  exists (stored (stored fs path1 (object_wire obj)) path2 (object_wire obj)).
  split; [| split; [| split]].
  - now apply SerializeToFile_members.
  - now apply SerializeToFile_members.
  - apply (SerializeFromFile_members _ obj); [| exact Hobj | exact Hf1].
    rewrite stored_lookup_ne by (intros Heq; apply Hne; now symmetry).
    apply stored_lookup.
  - apply (SerializeFromFile_members _ obj); [| exact Hobj | exact Hf2].
    apply stored_lookup.
Qed.

End ObjectEncoding.

Lemma same_object_two_files_witness :
  exists fs1 fs2,
    SerializeToFile (H := members_serializable (bo := LittleEndian))
      empty_disk foo_main "hello.bin" = Done (fs1, foo_main)
    /\ SerializeToFile (H := members_serializable (bo := LittleEndian))
         fs1 foo_main "copy.bin" = Done (fs2, foo_main)
    /\ SerializeFromFile (H := members_serializable (bo := LittleEndian))
         fs2 (Foo 0 [] [] []) "hello.bin" = Done (fs2, map field_back foo_main)
    /\ SerializeFromFile (H := members_serializable (bo := LittleEndian))
         fs2 (Foo 0 [] [] []) "copy.bin" = Done (fs2, map field_back foo_main).
Proof.
  apply (same_object_two_files (bo := LittleEndian) empty_disk
           "hello.bin" "copy.bin" foo_main (Foo 0 [] [] []) (Foo 0 [] [] [])).
  - apply empty_disk_writable.
  - apply empty_disk_writable.
  - discriminate.
  - repeat constructor; vm_compute; discriminate.
  - repeat constructor.
  - repeat constructor.
Defined.

(** An object whose only member is a vector of arithmetic elements. *)
Lemma single_vector_member {bo : byte_order} fs path m k (val : list Z) :
  with_archive fs path m
    (fun file => Serialize file [vector_field (Arithmetic k) val])
  = '(fs', val') ← with_archive fs path m (fun file => vector_basic k file val);
    Done (fs', [vector_field (Arithmetic k) val']).
Proof.
  unfold with_archive. destruct (FileArchive_ctor fs path m) as [fs1 file].
  unfold Serialize, members_serializable.
  cbn [serialize_members serialize_field vector_op].
  destruct (vector_basic k file val) as [[a1 v1]|f]; reflexivity.
Qed.

(** C9 as stated fails: an object holding a vector of 2^30 [int] equal to 1
    is serialized to two files, and both files deserialize to an object
    whose vector holds 2^30 zeros: equal to each other, not to the
    original. *)
Lemma same_object_two_files_counterexample :
  SerializeToFile (H := members_serializable (bo := LittleEndian))
    empty_disk huge_object "hello.bin"
  = Done (stored empty_disk "hello.bin" (overflowing_wire (bo := LittleEndian)),
          huge_object)
  /\ SerializeToFile (H := members_serializable (bo := LittleEndian))
       (stored empty_disk "hello.bin" (overflowing_wire (bo := LittleEndian)))
       huge_object "copy.bin"
     = Done (two_copies, huge_object)
  /\ SerializeFromFile (H := members_serializable (bo := LittleEndian))
       two_copies [vector_field (Arithmetic t_int) []] "hello.bin"
     = Done (two_copies, zeroed_object)
  /\ SerializeFromFile (H := members_serializable (bo := LittleEndian))
       two_copies [vector_field (Arithmetic t_int) []] "copy.bin"
     = Done (two_copies, zeroed_object)
  /\ map field_back huge_object = huge_object
  /\ replicate giga 1 !! 0%nat = Some 1
  /\ replicate giga 0 !! 0%nat = Some 0.
Proof.
  pose proof giga_size as Hn.
  unfold SerializeToFile, SerializeFromFile, huge_object, zeroed_object.
  rewrite !single_vector_member.
  split; [| split; [| split; [| split; [| split; [| split]]]]].
  - rewrite overflowing_vector_write; [reflexivity | exact Hn |].
    apply empty_disk_writable.
  - rewrite overflowing_vector_write; [reflexivity | exact Hn |].
    apply empty_disk_writable.
  - rewrite (overflowing_vector_read giga); [reflexivity | exact Hn |].
    unfold two_copies. rewrite stored_lookup_ne by discriminate.
    apply stored_lookup.
  - rewrite (overflowing_vector_read giga); [reflexivity | exact Hn |].
    apply stored_lookup.
  - reflexivity.
  - apply lookup_replicate_2. lia.
  - apply lookup_replicate_2. lia.
Qed.

(** The run of [main]: [Foo] is written to hello.bin and read into a
    default-constructed [Foo]. *)
Example foo_main_run :
  match SerializeToFile (H := members_serializable (bo := LittleEndian))
          empty_disk foo_main "hello.bin" with
  | Done (fs, _) =>
      SerializeFromFile (H := members_serializable (bo := LittleEndian))
        fs (Foo 0 [] [] []) "hello.bin"
  | Stop f => Stop f
  end
  = Done (stored empty_disk "hello.bin" (object_wire (bo := LittleEndian) foo_main),
          Foo 2 (chars "Hello" ++ [NUL]) [1; 2; 3]
            [chars "a" ++ [NUL];
             chars "HelloHelloHelloHelloHelloHelloHelloHelloHelloHelloHelloHello!"
             ++ [NUL]]).
Proof. vm_compute. reflexivity. Qed.

(** * Further properties *)

(** ** What a call may do to its archive *)

Lemma appended_refl s : appended s s.
Proof.
  unfold appended. repeat split; trivial. exists []. now rewrite app_nil_r.
Qed.

Lemma appended_trans s1 s2 s3 : appended s1 s2 -> appended s2 s3 -> appended s1 s3.
Proof.
  intros (Ho1 & Hg1 & Hk1 & [b1 Hc1] & Hf1) (Ho2 & Hg2 & Hk2 & [b2 Hc2] & Hf2).
  unfold appended. repeat split; try congruence.
  - exists (b1 ++ b2). rewrite Hc2, Hc1. now rewrite app_assoc.
  - intros Hf. pose proof (Hf1 Hf) as ->. now apply Hf2.
Qed.

Lemma fstream_write_appended s data n : appended s (fstream_write s data n).
Proof.
  unfold fstream_write. destruct (failbit s) eqn:Hf.
  - apply appended_refl.
  - unfold appended. simpl. repeat split; [| congruence].
    now exists (take (Z.to_nat n) data).
Qed.

Lemma advanced_refl s : advanced s s.
Proof. unfold advanced. repeat split; trivial. Qed.

Lemma advanced_trans s1 s2 s3 : advanced s1 s2 -> advanced s2 s3 -> advanced s1 s3.
Proof.
  intros (Ho1 & Hc1 & Hk1 & Hg1 & Hf1) (Ho2 & Hc2 & Hk2 & Hg2 & Hf2).
  unfold advanced. repeat split; try congruence; try lia.
  intros Hf. pose proof (Hf1 Hf) as ->. now apply Hf2.
Qed.

Lemma fstream_read_advanced s n dest : advanced s (fstream_read s n dest).1.
Proof.
  unfold fstream_read. destruct (failbit s) eqn:Hf; simpl.
  - apply advanced_refl.
  - unfold advanced. simpl. repeat split; try lia. congruence.
Qed.

Lemma follows_refl a : follows a a.
Proof.
  unfold follows. repeat split.
  destruct (mode_ a); [apply appended_refl | apply advanced_refl].
Qed.

Lemma follows_trans a1 a2 a3 : follows a1 a2 -> follows a2 a3 -> follows a1 a3.
Proof.
  intros (Hm1 & Hp1 & Hs1) (Hm2 & Hp2 & Hs2). rewrite Hm1 in Hs2.
  unfold follows. repeat split; try congruence.
  destruct (mode_ a1);
    [eapply appended_trans | eapply advanced_trans]; eassumption.
Qed.

Lemma follows_write a s :
  IsWrite a = true -> appended (file_ a) s -> follows a (with_file a s).
Proof.
  unfold IsWrite, follows. intros Hw Hs. repeat split.
  destruct (mode_ a); [exact Hs | discriminate].
Qed.

Lemma follows_read a s :
  IsWrite a = false -> advanced (file_ a) s -> follows a (with_file a s).
Proof.
  unfold IsWrite, follows. intros Hw Hs. repeat split.
  destruct (mode_ a); [discriminate | exact Hs].
Qed.

Lemma follows_IsWrite a a' : follows a a' -> IsWrite a' = IsWrite a.
Proof. intros (Hm & _). unfold IsWrite. now rewrite Hm. Qed.

Section Keeps.
Context {bo : byte_order}.

Lemma op_int_follows a val : follows a (op_int a val).1.
Proof.
  unfold op_int. destruct (negb (IsStreamValid a)); [apply follows_refl|].
  destruct (IsWrite a) eqn:Hw.
  - apply follows_write; [exact Hw | apply fstream_write_appended].
  - pose proof (fstream_read_advanced (file_ a) 4 (image sizeof_int val)) as Hs.
    destruct (fstream_read (file_ a) 4 (image sizeof_int val)) as [s mem].
    now apply follows_read.
Qed.

Lemma op_uint_follows a val : follows a (op_uint a val).1.
Proof.
  unfold op_uint. destruct (negb (IsStreamValid a)); [apply follows_refl|].
  destruct (IsWrite a) eqn:Hw.
  - apply follows_write; [exact Hw | apply fstream_write_appended].
  - pose proof (fstream_read_advanced (file_ a) 4 (image sizeof_int val)) as Hs.
    destruct (fstream_read (file_ a) 4 (image sizeof_int val)) as [s mem].
    now apply follows_read.
Qed.

Lemma op_string_keeps : keeps op_string.
Proof.
  intros a val a' val'. unfold op_string.
  destruct (negb (IsStreamValid a)).
  { intros [= <- <-]. apply follows_refl. }
  destruct (IsWrite a) eqn:Hw.
  - intros [= <- <-]. apply follows_write; [exact Hw|].
    eapply appended_trans; apply fstream_write_appended.
  - pose proof (fstream_read_advanced (file_ a) 4 (image sizeof_int 0)) as Hs1.
    destruct (fstream_read (file_ a) 4 (image sizeof_int 0)) as [s1 mem].
    destruct (failbit s1); [discriminate|].
    destruct (int_of_image mem <? 0); [discriminate|].
    match goal with |- context [fstream_read s1 ?n ?d] =>
      pose proof (fstream_read_advanced s1 n d) as Hs2;
      destruct (fstream_read s1 n d) as [s2 val2] end.
    intros [= <- <-]. apply follows_read; [exact Hw|].
    eapply advanced_trans; eassumption.
Qed.

Lemma SerializeBuffer_keeps bytes :
  keeps (fun a data => SerializeBuffer a data bytes).
Proof.
  intros a data a' data'. unfold SerializeBuffer.
  destruct (negb (IsStreamValid a)).
  { intros [= <- <-]. apply follows_refl. }
  destruct (IsWrite a) eqn:Hw.
  - intros [= <- <-]. apply follows_write; [exact Hw|].
    eapply appended_trans; apply fstream_write_appended.
  - pose proof (fstream_read_advanced (file_ a) 4 (image sizeof_int 0)) as Hs1.
    destruct (fstream_read (file_ a) 4 (image sizeof_int 0)) as [s1 mem].
    destruct (int_of_image mem =? bytes); [| discriminate].
    pose proof (fstream_read_advanced s1 bytes data) as Hs2.
    destruct (fstream_read s1 bytes data) as [s2 d2].
    intros [= <- <-]. apply follows_read; [exact Hw|].
    eapply advanced_trans; eassumption.
Qed.

Lemma vector_basic_keeps k : keeps (vector_basic k).
Proof.
  intros a val a' val'. unfold vector_basic.
  destruct (IsWrite a).
  - pose proof (op_uint_follows a (to_uint32 (Z.of_nat (length val)))) as H1.
    destruct (op_uint a (to_uint32 (Z.of_nat (length val)))) as [a1 sz].
    match goal with |- context [SerializeBuffer a1 ?d ?b] =>
      destruct (SerializeBuffer a1 d b) as [[a2 mem]|f] eqn:H2; [| discriminate] end.
    intros [= <- <-]. eapply follows_trans; [exact H1|].
    eapply (SerializeBuffer_keeps _ a1), H2.
  - pose proof (op_uint_follows a 0) as H1.
    destruct (op_uint a 0) as [a1 sz].
    match goal with |- context [SerializeBuffer a1 ?d ?b] =>
      destruct (SerializeBuffer a1 d b) as [[a2 mem]|f] eqn:H2; [| discriminate] end.
    intros [= <- <-]. eapply follows_trans; [exact H1|].
    eapply (SerializeBuffer_keeps _ a1), H2.
Qed.

Lemma each_element_keeps {T} (op : FileArchive -> T -> outcome (FileArchive * T)) :
  keeps op ->
  forall n idx a val a' val',
    each_element op n idx a val = Done (a', val') -> follows a a'.
Proof.
  intros Hop. induction n as [|n IH]; intros idx a val a' val'.
  - intros [= <- <-]. apply follows_refl.
  - cbn [each_element]. destruct (val !! Z.to_nat idx) as [x|]; [| discriminate].
    destruct (op a x) as [[a1 x1]|f] eqn:Hx; [| discriminate].
    unfold mbind, outcome_bind. cbv beta iota.
    destruct (idx <? INT_MAX); [| discriminate].
    intros Hrest. eapply follows_trans; [eapply Hop, Hx | eapply IH, Hrest].
Qed.

Lemma vector_composite_keeps {T}
    (op : FileArchive -> T -> outcome (FileArchive * T)) dflt :
  keeps op -> keeps (vector_composite op dflt).
Proof.
  intros Hop a val a' val'. unfold vector_composite.
  destruct (IsWrite a).
  - pose proof (op_uint_follows a (to_uint32 (Z.of_nat (length val)))) as H1.
    destruct (op_uint a (to_uint32 (Z.of_nat (length val)))) as [a1 sz].
    intros Hloop. eapply follows_trans; [exact H1|].
    eapply each_element_keeps; eassumption.
  - pose proof (op_uint_follows a 0) as H1.
    destruct (op_uint a 0) as [a1 sz].
    intros Hloop. eapply follows_trans; [exact H1|].
    eapply each_element_keeps; eassumption.
Qed.

Lemma vector_op_keeps elem : keeps (vector_op elem).
Proof.
  induction elem as [k| |e IH]; cbn [vector_op].
  - apply vector_basic_keeps.
  - apply vector_composite_keeps, op_string_keeps.
  - apply vector_composite_keeps, IH.
Qed.

Lemma serialize_field_keeps : keeps serialize_field.
Proof.
  intros a f a' f'. destruct f as [v|v|v|elem v]; cbn [serialize_field].
  - pose proof (op_int_follows a v) as H. destruct (op_int a v) as [a1 v1].
    now intros [= <- <-].
  - pose proof (op_uint_follows a v) as H. destruct (op_uint a v) as [a1 v1].
    now intros [= <- <-].
  - destruct (op_string a v) as [[a1 v1]|e] eqn:H; [| discriminate].
    intros [= <- <-]. eapply op_string_keeps, H.
  - destruct (vector_op elem a v) as [[a1 v1]|e] eqn:H; [| discriminate].
    intros [= <- <-]. eapply vector_op_keeps, H.
Qed.

Lemma serialize_members_keeps : keeps serialize_members.
Proof.
  intros a obj. revert a. induction obj as [|f obj IH]; intros a a' obj'.
  - intros [= <- <-]. apply follows_refl.
  - cbn [serialize_members].
    destruct (serialize_field a f) as [[a1 f1]|e] eqn:Hf; [| discriminate].
    unfold mbind at 1, outcome_bind at 1. cbv beta iota.
    destruct (serialize_members a1 obj) as [[a2 r]|e] eqn:Hr; [| discriminate].
    intros [= <- <-].
    eapply follows_trans; [eapply serialize_field_keeps, Hf | eapply IH, Hr].
Qed.

End Keeps.

(** ** Destruction closes the stream once *)



Section Destruction.
Context {bo : byte_order}.


End Destruction.


Section WriteNeverAborts.
Context {bo : byte_order}.

Lemma op_string_write_total : write_stops_on_ub_only op_string.
Proof.
  intros a val f Hw. unfold op_string. rewrite Hw.
  destruct (negb (IsStreamValid a)); discriminate.
Qed.

Lemma vector_basic_write_total k : write_stops_on_ub_only (vector_basic k).
Proof.
  intros a val f Hw. unfold vector_basic. rewrite Hw.
  pose proof (op_uint_follows a (to_uint32 (Z.of_nat (length val)))) as H1.
  destruct (op_uint a (to_uint32 (Z.of_nat (length val)))) as [a1 sz].
  apply follows_IsWrite in H1. simpl in H1. rewrite Hw in H1.
  unfold SerializeBuffer. rewrite H1.
  destruct (negb (IsStreamValid a1)); discriminate.
Qed.

Lemma each_element_write_total {T}
    (op : FileArchive -> T -> outcome (FileArchive * T)) :
  keeps op -> write_stops_on_ub_only op ->
  forall n idx a val f,
    IsWrite a = true -> each_element op n idx a val = Stop f ->
    f = UndefinedBehaviour.
Proof.
  intros Hk Hop. induction n as [|n IH]; intros idx a val f Hw.
  - discriminate.
  - cbn [each_element]. destruct (val !! Z.to_nat idx) as [x|]; [| now intros [= <-]].
    destruct (op a x) as [[a1 x1]|e] eqn:Hx.
    + unfold mbind, outcome_bind. cbv beta iota.
      destruct (idx <? INT_MAX); [| now intros [= <-]].
      apply IH. rewrite (follows_IsWrite a a1); [exact Hw | eapply Hk, Hx].
    + intros [= <-]. eapply Hop; eassumption.
Qed.

Lemma vector_composite_write_total {T}
    (op : FileArchive -> T -> outcome (FileArchive * T)) dflt :
  keeps op -> write_stops_on_ub_only op ->
  write_stops_on_ub_only (vector_composite op dflt).
Proof.
  intros Hk Hop a val f Hw. unfold vector_composite. rewrite Hw.
  pose proof (op_uint_follows a (to_uint32 (Z.of_nat (length val)))) as H1.
  destruct (op_uint a (to_uint32 (Z.of_nat (length val)))) as [a1 sz].
  apply follows_IsWrite in H1. simpl in H1. rewrite Hw in H1.
  now apply each_element_write_total.
Qed.

Lemma vector_op_write_total elem : write_stops_on_ub_only (vector_op elem).
Proof.
  induction elem as [k| |e IH]; cbn [vector_op].
  - apply vector_basic_write_total.
  - apply vector_composite_write_total;
      [apply op_string_keeps | apply op_string_write_total].
  - apply vector_composite_write_total; [apply vector_op_keeps | exact IH].
Qed.

Lemma serialize_field_write_total : write_stops_on_ub_only serialize_field.
Proof.
  intros a f e Hw. destruct f as [v|v|v|elem v]; cbn [serialize_field].
  - destruct (op_int a v); discriminate.
  - destruct (op_uint a v); discriminate.
  - destruct (op_string a v) as [[a1 v1]|e1] eqn:H; [discriminate|].
    intros [= <-]. eapply op_string_write_total; eassumption.
  - destruct (vector_op elem a v) as [[a1 v1]|e1] eqn:H; [discriminate|].
    intros [= <-]. eapply vector_op_write_total; eassumption.
Qed.

Lemma serialize_members_write_total : write_stops_on_ub_only serialize_members.
Proof.
  intros a obj. revert a. induction obj as [|f obj IH]; intros a e Hw.
  - discriminate.
  - cbn [serialize_members].
    destruct (serialize_field a f) as [[a1 f1]|e1] eqn:Hf.
    + unfold mbind at 1, outcome_bind at 1. cbv beta iota.
      destruct (serialize_members a1 obj) as [[a2 r]|e2] eqn:Hr; [discriminate|].
      intros [= <-]. eapply IH; [| exact Hr].
      rewrite (follows_IsWrite a a1); [exact Hw | eapply serialize_field_keeps, Hf].
    + intros [= <-]. eapply serialize_field_write_total; eassumption.
Qed.

End WriteNeverAborts.

(** ** The entry points and the file system *)

Lemma ctor_follows fs path m :
  mode_ (FileArchive_ctor fs path m).2 = m
  /\ path_ (FileArchive_ctor fs path m).2 = path.
Proof.
  unfold FileArchive_ctor. now destruct (fstream_open fs path m).
Qed.

Lemma ctor_frame fs path m :
  denied (FileArchive_ctor fs path m).1 = denied fs
  /\ forall p, p <> path ->
       files (FileArchive_ctor fs path m).1 !! p = files fs !! p.
Proof.
  unfold FileArchive_ctor, fstream_open. destruct m.
  - destruct (decide (path ∈ denied fs)); simpl; [now split|].
    split; [reflexivity|]. intros p Hp. now apply lookup_insert_ne.
  - destruct (files fs !! path); now split.
Qed.

Lemma close_effect_frame fs a :
  denied (close_effect fs a) = denied fs
  /\ forall p, p <> path_ a -> files (close_effect fs a) !! p = files fs !! p.
Proof.
  unfold close_effect. destruct (is_open (file_ a) && IsWrite a); simpl;
    [| now split].
  split; [reflexivity|]. intros p Hp. now apply lookup_insert_ne.
Qed.

Lemma dtor_frame fs a :
  denied (FileArchive_dtor fs a).1 = denied fs
  /\ forall p, p <> path_ a -> files (FileArchive_dtor fs a).1 !! p = files fs !! p.
Proof.
  unfold FileArchive_dtor, dtor_body.
  destruct (negb (IsStreamValid a)); simpl.
  - destruct (close_effect_frame fs a) as [Hd Hf].
    destruct (close_effect_frame (close_effect fs a)
                (with_file a (fstream_close (file_ a)))) as [Hd' Hf'].
    split; [congruence|]. intros p Hp. rewrite Hf' by exact Hp. now apply Hf.
  - apply close_effect_frame.
Qed.

Section EntryPoints.
Context {bo : byte_order}.

(** X1.  Deserialization never changes the file system: whenever
    SerializeFromFile returns, for any object and whatever the file holds
    (or if there is no file), every file is as it was. *)
Theorem deserialization_leaves_files (fs fs' : filesystem)
    (obj obj' : list field) (path : string) :
  SerializeFromFile fs obj path = Done (fs', obj') -> fs' = fs.
Proof.
  unfold SerializeFromFile, with_archive.
  destruct (ctor_follows fs path Read) as [Hm _].
  assert (Hfs : (FileArchive_ctor fs path Read).1 = fs).
  { unfold FileArchive_ctor, fstream_open. now destruct (files fs !! path). }
  destruct (FileArchive_ctor fs path Read) as [fs1 file]. simpl in Hm, Hfs.
  subst fs1.
  destruct (Serialize file obj) as [[file1 r]|e] eqn:Hbody; [| discriminate].
  unfold mbind, outcome_bind. intros [= <- <-].
  apply dtor_reader.
  destruct (serialize_members_keeps _ _ _ _ Hbody) as [Hm1 _]. congruence.
Qed.

(** X2.  Serialization touches one file only: whenever SerializeToFile
    returns, every file other than the one at its path holds what it held,
    and no path became writable or unwritable. *)
Theorem serialization_touches_one_file (fs fs' : filesystem)
    (obj obj' : list field) (path : string) :
  SerializeToFile fs obj path = Done (fs', obj') ->
  denied fs' = denied fs
  /\ forall p, p <> path -> files fs' !! p = files fs !! p.
Proof.
  unfold SerializeToFile, with_archive.
  destruct (ctor_follows fs path Write) as [_ Hpath].
  destruct (ctor_frame fs path Write) as [Hd Hf].
  destruct (FileArchive_ctor fs path Write) as [fs1 file]. simpl in *.
  destruct (Serialize file obj) as [[file1 r]|e] eqn:Hbody; [| discriminate].
  unfold mbind, outcome_bind. intros [= <- <-].
  destruct (serialize_members_keeps _ _ _ _ Hbody) as (_ & Hp1 & _).
  destruct (dtor_frame fs1 file1) as [Hd' Hf'].
  split; [congruence|].
  intros p Hp. rewrite Hf' by congruence. now apply Hf.
Qed.

(** X3.  Through a whole [Serialize] callback that returns, the archive
    keeps its mode and its path; in Write mode the bytes already stored
    stay where they are and bytes are only added after them; in Read mode
    the content is untouched, the read position never moves back, and an
    archive whose stream is not good is left exactly as it was. *)
Theorem archive_moves_forward_only (a a' : FileArchive) (obj obj' : list field) :
  Serialize a obj = Done (a', obj') ->
  mode_ a' = mode_ a /\ path_ a' = path_ a
  /\ (IsWrite a = true ->
      exists bytes, content (file_ a') = content (file_ a) ++ bytes
                    /\ gpos (file_ a') = gpos (file_ a))
  /\ (IsWrite a = false ->
      content (file_ a') = content (file_ a)
      /\ (gpos (file_ a) <= gpos (file_ a'))%nat
      /\ (IsStreamValid a = false -> a' = a)).
Proof.
  intros Hbody.
  destruct (serialize_members_keeps _ _ _ _ Hbody) as (Hm & Hp & Hs).
  split; [exact Hm | split; [exact Hp | split]].
  - unfold IsWrite. destruct (mode_ a); [| discriminate].
    intros _. destruct Hs as (_ & Hg & _ & [bytes Hc] & _). now exists bytes.
  - unfold IsWrite. destruct (mode_ a) eqn:Hmode; [discriminate|].
    intros _. destruct Hs as (_ & Hc & _ & Hg & Hf).
    split; [exact Hc | split; [exact Hg|]].
    unfold IsStreamValid. intros Hv. apply negb_false_iff in Hv.
    specialize (Hf Hv). destruct a as [m p s], a' as [m' p' s'].
    simpl in *. congruence.
Qed.

(** X4.  Writing never trips the assertion and never throws: in Write
    mode a [Serialize] callback, whatever the object and the state of the
    stream, does not stop at [assert] and does not leave a
    [std::length_error]. *)
Theorem writing_never_aborts (a : FileArchive) (obj : list field) :
  IsWrite a = true ->
  Serialize a obj <> Stop AssertionFailed
  /\ Serialize a obj <> Stop LengthError.
Proof.
  intros Hw. split; intros Hstop;
    pose proof (serialize_members_write_total a obj _ Hw Hstop) as Hf;
    discriminate Hf.
Qed.

End EntryPoints.

Lemma deserialization_leaves_files_witness :
  stored empty_disk "hello.bin" (object_wire (bo := LittleEndian) foo_main)
  = stored empty_disk "hello.bin" (object_wire (bo := LittleEndian) foo_main).
Proof.
  apply (deserialization_leaves_files (bo := LittleEndian)
           (stored empty_disk "hello.bin" (object_wire (bo := LittleEndian) foo_main))
           (stored empty_disk "hello.bin" (object_wire (bo := LittleEndian) foo_main))
           (Foo 0 [] [] []) (map field_back foo_main) "hello.bin").
  vm_compute. reflexivity.
Defined.

Lemma serialization_touches_one_file_witness :
  denied (stored (stored empty_disk "other.bin" (chars "kept")) "hello.bin"
            (object_wire (bo := LittleEndian) foo_main))
  = denied (stored empty_disk "other.bin" (chars "kept"))
  /\ forall p, p <> "hello.bin"%string ->
       files (stored (stored empty_disk "other.bin" (chars "kept")) "hello.bin"
                (object_wire (bo := LittleEndian) foo_main)) !! p
       = files (stored empty_disk "other.bin" (chars "kept")) !! p.
Proof.
  apply (serialization_touches_one_file (bo := LittleEndian)
           (stored empty_disk "other.bin" (chars "kept")) _ foo_main foo_main
           "hello.bin").
  vm_compute. reflexivity.
Defined.

Lemma archive_moves_forward_only_witness :
  mode_ (put (new_writer "hello.bin") (object_wire (bo := LittleEndian) foo_main))
  = mode_ (new_writer "hello.bin")
  /\ path_ (put (new_writer "hello.bin") (object_wire (bo := LittleEndian) foo_main))
     = path_ (new_writer "hello.bin")
  /\ (IsWrite (new_writer "hello.bin") = true ->
      exists bytes,
        content (file_ (put (new_writer "hello.bin")
                          (object_wire (bo := LittleEndian) foo_main)))
        = content (file_ (new_writer "hello.bin")) ++ bytes
        /\ gpos (file_ (put (new_writer "hello.bin")
                          (object_wire (bo := LittleEndian) foo_main)))
           = gpos (file_ (new_writer "hello.bin")))
  /\ (IsWrite (new_writer "hello.bin") = false ->
      content (file_ (put (new_writer "hello.bin")
                        (object_wire (bo := LittleEndian) foo_main)))
      = content (file_ (new_writer "hello.bin"))
      /\ (gpos (file_ (new_writer "hello.bin"))
          <= gpos (file_ (put (new_writer "hello.bin")
                            (object_wire (bo := LittleEndian) foo_main))))%nat
      /\ (IsStreamValid (new_writer "hello.bin") = false ->
          put (new_writer "hello.bin") (object_wire (bo := LittleEndian) foo_main)
          = new_writer "hello.bin")).
Proof.
  apply (archive_moves_forward_only (bo := LittleEndian)
           (new_writer "hello.bin") _ foo_main foo_main).
  vm_compute. reflexivity.
Defined.

Lemma writing_never_aborts_witness :
  Serialize (ISerializable := members_serializable (bo := LittleEndian))
    (new_writer "hello.bin") foo_main <> Stop AssertionFailed
  /\ Serialize (ISerializable := members_serializable (bo := LittleEndian))
       (new_writer "hello.bin") foo_main <> Stop LengthError.
Proof.
  apply (writing_never_aborts (bo := LittleEndian) (new_writer "hello.bin") foo_main).
  reflexivity.
Defined.

(** ** Entry points on a file that does not open *)

Section NotOpened.
Context {bo : byte_order}.

Lemma op_uint_invalid a val : IsStreamValid a = false -> op_uint a val = (a, val).
Proof. intros Hv. unfold op_uint. now rewrite Hv. Qed.

Lemma SerializeBuffer_invalid a data bytes :
  IsStreamValid a = false -> SerializeBuffer a data bytes = Done (a, data).
Proof. intros Hv. unfold SerializeBuffer. now rewrite Hv. Qed.

Lemma op_string_invalid a val :
  IsStreamValid a = false -> op_string a val = Done (a, val).
Proof. intros Hv. unfold op_string. now rewrite Hv. Qed.

Lemma vector_op_invalid_read elem a val :
  IsStreamValid a = false -> IsWrite a = false ->
  vector_op elem a val = Done (a, []).
Proof.
  intros Hv Hw. destruct elem as [k| |e]; cbn [vector_op].
  - unfold vector_basic. rewrite Hw, op_uint_invalid by exact Hv.
    change (Z.to_nat 0) with 0%nat. rewrite resize_0.
    now rewrite SerializeBuffer_invalid.
  - unfold vector_composite. rewrite Hw, op_uint_invalid by exact Hv.
    change (Z.to_nat 0) with 0%nat. now rewrite resize_0.
  - unfold vector_composite. rewrite Hw, op_uint_invalid by exact Hv.
    change (Z.to_nat 0) with 0%nat. now rewrite resize_0.
Qed.

Lemma serialize_members_invalid_read a obj :
  IsStreamValid a = false -> IsWrite a = false ->
  serialize_members a obj = Done (a, map emptied obj).
Proof.
  intros Hv Hw. induction obj as [|f obj IH]; [reflexivity|].
  cbn [serialize_members map].
  assert (Hf : serialize_field a f = Done (a, emptied f)).
  { destruct f as [v|v|v|elem v]; cbn [serialize_field emptied].
    - unfold op_int. now rewrite Hv.
    - now rewrite op_uint_invalid.
    - now rewrite op_string_invalid.
    - now rewrite vector_op_invalid_read. }
  rewrite Hf. unfold mbind at 1, outcome_bind at 1. cbv beta iota.
  now rewrite IH.
Qed.

Lemma in_order_unchanged {T} (op : FileArchive -> T -> outcome (FileArchive * T))
    a val :
  Forall (fun x => op a x = Done (a, x)) val -> in_order op a val = Done (a, val).
Proof.
  induction 1 as [|x val Hx _ IH]; [reflexivity|].
  cbn [in_order]. rewrite Hx. unfold mbind at 1, outcome_bind at 1.
  cbv beta iota. now rewrite IH.
Qed.

Lemma vector_composite_invalid_write {T}
    (op : FileArchive -> T -> outcome (FileArchive * T)) dflt fits a val :
  IsStreamValid a = false -> IsWrite a = true ->
  (forall x, fits x -> op a x = Done (a, x)) ->
  composite_fits fits val ->
  vector_composite op dflt a val = Done (a, val).
Proof.
  intros Hv Hw Hop [Hlen Hfits].
  rewrite vector_composite_write by assumption.
  rewrite op_uint_invalid by exact Hv. simpl fst.
  apply in_order_unchanged. eapply Forall_impl; [exact Hfits | exact Hop].
Qed.

Lemma vector_op_invalid_write elem a :
  IsStreamValid a = false -> IsWrite a = true ->
  forall val, indexable elem val -> vector_op elem a val = Done (a, val).
Proof.
  intros Hv Hw. induction elem as [k| |e IH]; intros val Hfits;
    cbn [vector_op indexable] in *.
  - unfold vector_basic.
    rewrite Hw, op_uint_invalid, SerializeBuffer_invalid by exact Hv.
    unfold mbind, outcome_bind. now rewrite vector_of_data_whole.
  - apply (vector_composite_invalid_write _ _ (fun _ => True)); try assumption.
    intros x _. now apply op_string_invalid.
  - apply (vector_composite_invalid_write _ _ (indexable e)); assumption.
Qed.

Lemma serialize_members_invalid_write a obj :
  IsStreamValid a = false -> IsWrite a = true -> Forall field_indexable obj ->
  serialize_members a obj = Done (a, obj).
Proof.
  intros Hv Hw. induction 1 as [|f obj Hf _ IH]; [reflexivity|].
  cbn [serialize_members].
  assert (Hs : serialize_field a f = Done (a, f)).
  { destruct f as [v|v|v|elem v]; cbn [serialize_field field_indexable] in *.
    - unfold op_int. now rewrite Hv.
    - now rewrite op_uint_invalid.
    - now rewrite op_string_invalid.
    - now rewrite vector_op_invalid_write. }
  rewrite Hs. unfold mbind at 1, outcome_bind at 1. cbv beta iota.
  now rewrite IH.
Qed.

(** The element loop runs on a stream that is not good as well: past
    INT_MAX elements its index overflows there too. *)
Lemma vector_composite_invalid_overflow (n : nat) a :
  IsStreamValid a = false -> mode_ a = Write -> INT_MAX < Z.of_nat n < 2 ^ 32 ->
  vector_composite op_string [] a (replicate n []) = Stop UndefinedBehaviour.
Proof.
  intros Hv Hm Hn. unfold vector_composite, IsWrite. rewrite Hm.
  rewrite length_replicate, to_uint32_id by (unfold INT_MAX in Hn; lia).
  rewrite op_uint_invalid by exact Hv.
  rewrite Nat2Z.id. change 0 with (Z.of_nat 0).
  apply (each_element_overflow op_string (fun a => mode_ a = Write)).
  - apply op_string_writes.
  - exact Hm.
  - unfold INT_MAX. simpl. lia.
  - simpl. lia.
  - rewrite length_replicate. lia.
Qed.

(** X5.  Deserializing from a file that does not exist returns normally
    with the file system unchanged; the [int], [unsigned int] and string
    members of the object keep their values, but every vector member has
    been emptied (resized to the count 0 that was never read). *)
Theorem missing_file_empties_vectors (fs : filesystem) (obj : list field)
    (path : string) :
  files fs !! path = None ->
  SerializeFromFile fs obj path = Done (fs, map emptied obj).
Proof.
  intros Hnone. unfold SerializeFromFile, with_archive.
  assert (Hctor : FileArchive_ctor fs path Read = (fs, failed_archive path Read)).
  { unfold FileArchive_ctor, fstream_open. now rewrite Hnone. }
  rewrite Hctor. unfold Serialize, members_serializable.
  rewrite serialize_members_invalid_read by reflexivity.
  unfold mbind, outcome_bind. now rewrite dtor_not_open.
Qed.

(** X6.  Serializing to a path that cannot be opened for output.  When
    every vector of strings or of vectors in the object, at any depth, has
    at most INT_MAX elements, the call returns normally with the object and
    every file as they were: nothing tells the caller that nothing was
    written.  Texts and vectors of arithmetic type may have any length (the
    only condition on an arithmetic element is that it is a value of its
    type).  The element loop of a vector of strings or vectors runs on
    the dead stream as well: for a vector of more than INT_MAX (and fewer
    than 2^32) strings the [int] index is incremented past INT_MAX, which
    is undefined, although there is no file to write to. *)
Theorem unwritable_path_is_silent (fs : filesystem) (obj : list field)
    (path : string) :
  path ∈ denied fs ->
  (Forall field_indexable obj -> SerializeToFile fs obj path = Done (fs, obj))
  /\ (forall n : nat, INT_MAX < Z.of_nat n < 2 ^ 32 ->
      SerializeToFile fs [vector_field StdString (replicate n [])] path
      = Stop UndefinedBehaviour).
Proof.
  intros Hden.
  assert (Hctor : FileArchive_ctor fs path Write = (fs, failed_archive path Write)).
  { unfold FileArchive_ctor, fstream_open.
    destruct (decide (path ∈ denied fs)); [reflexivity | contradiction]. }
  split.
  - intros Hobj. unfold SerializeToFile, with_archive.
    rewrite Hctor. unfold Serialize, members_serializable.
    rewrite serialize_members_invalid_write by (reflexivity || assumption).
    unfold mbind, outcome_bind. now rewrite dtor_not_open.
  - intros n Hn. unfold SerializeToFile. apply with_archive_stop.
    rewrite Hctor. simpl snd. unfold Serialize, members_serializable.
    cbn [serialize_members serialize_field vector_op].
    now rewrite vector_composite_invalid_overflow.
Qed.

End NotOpened.

Lemma foo_main_fits : Forall field_fits foo_main.
Proof. repeat constructor; vm_compute; discriminate. Qed.

Lemma foo_main_indexable : Forall field_indexable foo_main.
Proof.
  repeat constructor; try (vm_compute; discriminate); unfold INT_MAX; simpl; lia.
Qed.

Lemma missing_file_empties_vectors_witness :
  SerializeFromFile (H := members_serializable (bo := LittleEndian))
    empty_disk foo_main "hello.bin"
  = Done (empty_disk, Foo 2 (chars "Hello") [] []).
Proof.
  apply (missing_file_empties_vectors (bo := LittleEndian) empty_disk foo_main
           "hello.bin").
  reflexivity.
Defined.

Lemma unwritable_path_is_silent_witness :
  SerializeToFile (H := members_serializable (bo := LittleEndian))
    (mk_filesystem ∅ {[ "hello.bin"%string ]}) foo_main "hello.bin"
  = Done (mk_filesystem ∅ {[ "hello.bin"%string ]}, foo_main)
  /\ SerializeToFile (H := members_serializable (bo := LittleEndian))
       (mk_filesystem ∅ {[ "hello.bin"%string ]})
       [vector_field StdString (replicate past_int_max [])] "hello.bin"
     = Stop UndefinedBehaviour.
Proof.
  assert (Hden : "hello.bin"%string
                 ∈ denied (mk_filesystem ∅ {[ "hello.bin"%string ]}))
    by (simpl; set_solver).
  split.
  - apply (unwritable_path_is_silent (bo := LittleEndian)
             (mk_filesystem ∅ {[ "hello.bin"%string ]}) foo_main "hello.bin");
      [exact Hden | apply foo_main_indexable].
  - apply (unwritable_path_is_silent (bo := LittleEndian)
             (mk_filesystem ∅ {[ "hello.bin"%string ]}) foo_main "hello.bin");
      [exact Hden |].
    rewrite past_int_max_size. unfold INT_MAX. lia.
Defined.

(** ** Reading text from damaged files *)

Section DamagedText.
Context {bo : byte_order}.

Lemma op_string_negative_length a fresh word rest :
  reader a -> pending a = word ++ rest -> length word = 4%nat ->
  int_of_image word < 0 ->
  op_string a fresh = Stop LengthError.
Proof.
  intros Ha Hp Hword Hneg. destruct (reader_valid a Ha) as [Hv Hw].
  unfold op_string. rewrite Hv, Hw. simpl negb. cbv iota.
  rewrite (read_word a _ word rest Ha Hp Hword) by apply image_length.
  simpl failbit. cbv iota.
  destruct (Z.ltb_spec (int_of_image word) 0); [reflexivity | lia].
Qed.

(** X7.  Reading a string where the 4-byte length field holds a negative
    number makes [resize] throw [std::length_error]: the read does not
    return and no character is taken. *)
Theorem negative_length_throws (fs : filesystem) (path : string)
    (word rest fresh : list ascii) :
  files fs !! path = Some (word ++ rest) -> length word = 4%nat ->
  int_of_image word < 0 ->
  with_archive fs path Read (fun file => op_string file fresh) = Stop LengthError.
Proof.
  intros Hfile Hword Hneg. apply with_archive_stop.
  rewrite (ctor_read _ _ _ Hfile). simpl snd.
  apply (op_string_negative_length _ fresh word rest);
    [apply reader_new | apply pending_new | exact Hword | exact Hneg].
Qed.

(** X8.  Reading a string where fewer than four bytes are left (an empty
    or cut file) leaves the local [len] without a value, and the read goes
    on to use it: the behaviour is undefined. *)
Theorem cut_length_field_is_undefined (fs : filesystem) (path : string)
    (c fresh : list ascii) :
  files fs !! path = Some c -> (length c < 4)%nat ->
  with_archive fs path Read (fun file => op_string file fresh)
  = Stop UndefinedBehaviour.
Proof.
  intros Hfile Hshort. apply with_archive_stop.
  rewrite (ctor_read _ _ _ Hfile). simpl snd.
  unfold op_string. simpl IsStreamValid. simpl IsWrite. cbv iota.
  unfold fstream_read. simpl failbit. cbv iota. simpl gpos. simpl content.
  rewrite drop_0. change (Z.to_nat 4) with 4%nat. rewrite take_ge by lia.
  destruct (Z.eqb_spec (Z.of_nat (length c)) 4) as [Heq|_]; [lia|].
  reflexivity.
Qed.

(** X9.  Reading a string whose length field says [L] from a file that
    ends before [L] characters returns normally: the string has length
    [L], starts with the characters the file did hold, and ends with what
    the resized destination held there (terminator bytes where the
    destination was shorter). *)
Theorem cut_text_is_padded (fs : filesystem) (path : string)
    (L : Z) (part fresh : list ascii) :
  files fs !! path = Some (image sizeof_int L ++ part) ->
  Z.of_nat (length part) < L <= INT_MAX ->
  with_archive fs path Read (fun file => op_string file fresh)
  = Done (fs, part ++ drop (length part) (resize (Z.to_nat L) NUL fresh)).
Proof.
  intros Hfile [Hpart HL]. unfold INT_MAX in HL.
  eapply with_archive_read; [exact Hfile | |].
  - unfold op_string. simpl IsStreamValid. simpl IsWrite. cbv iota.
    rewrite (read_word _ _ (image sizeof_int L) part) by
      (try apply reader_new; try apply image_length; trivial).
    simpl failbit. cbv iota.
    assert (HL' : - 2 ^ 31 <= L < 2 ^ 31) by lia.
    rewrite int_of_image_image, (to_int32_id L HL').
    destruct (Z.ltb_spec L 0); [lia|].
    unfold fstream_read. simpl failbit. cbv iota.
    simpl gpos. simpl content.
    rewrite drop_app_length' by now rewrite image_length.
    rewrite take_ge by lia. reflexivity.
  - reflexivity.
Qed.

End DamagedText.

Lemma negative_length_throws_witness :
  with_archive
    (stored empty_disk "hello.bin" (image (bo := LittleEndian) sizeof_int (-1) ++ chars "abc"))
    "hello.bin" Read (fun file => op_string (bo := LittleEndian) file [])
  = Stop LengthError.
Proof.
  apply (negative_length_throws (bo := LittleEndian) _ "hello.bin"
           (image (bo := LittleEndian) sizeof_int (-1)) (chars "abc") []).
  - apply stored_lookup.
  - reflexivity.
  - vm_compute. reflexivity.
Defined.

Lemma cut_length_field_is_undefined_witness :
  with_archive (stored empty_disk "hello.bin" []) "hello.bin" Read
    (fun file => op_string (bo := LittleEndian) file (chars "old"))
  = Stop UndefinedBehaviour.
Proof.
  apply (cut_length_field_is_undefined (bo := LittleEndian) _ "hello.bin" []
           (chars "old")).
  - apply stored_lookup.
  - simpl. lia.
Defined.

Lemma cut_text_is_padded_witness :
  with_archive
    (stored empty_disk "hello.bin"
       (image (bo := LittleEndian) sizeof_int 6 ++ chars "Hel"))
    "hello.bin" Read (fun file => op_string (bo := LittleEndian) file [])
  = Done (stored empty_disk "hello.bin"
            (image (bo := LittleEndian) sizeof_int 6 ++ chars "Hel"),
          chars "Hel" ++ [NUL; NUL; NUL]).
Proof.
  apply (cut_text_is_padded (bo := LittleEndian) _ "hello.bin" 6 (chars "Hel") []).
  - apply stored_lookup.
  - vm_compute. split; [reflexivity | discriminate].
Defined.

(** ** Reading a vector from a cut file *)

Section CutPayload.
Context {bo : byte_order}.

Lemma vector_data_app k l1 l2 :
  vector_data k (l1 ++ l2) = vector_data k l1 ++ vector_data k l2.
Proof. unfold vector_data. now rewrite map_app, concat_app. Qed.

Lemma vector_data_drop k (j : nat) l :
  (j <= length l)%nat ->
  drop (j * sizeof k) (vector_data k l) = vector_data k (drop j l).
Proof.
  intros Hj. rewrite <- (take_drop j l) at 1. rewrite vector_data_app.
  apply drop_app_length'. now rewrite vector_data_length, length_take_le.
Qed.

Lemma vector_basic_cut k a (fresh val : list Z) (j : nat) :
  reader a ->
  pending a = image sizeof_int (Z.of_nat (length val))
              ++ image sizeof_int (Z.of_nat (length val) * Z.of_nat (sizeof k))
              ++ vector_data k (take j val) ->
  (j < length val)%nat ->
  Z.of_nat (length val) * Z.of_nat (sizeof k) <= INT_MAX ->
  Forall (representable k) val -> Forall (representable k) fresh ->
  exists a',
    vector_basic k a fresh
    = Done (a', take j val ++ drop j (resize (length val) 0 fresh))
    /\ mode_ a' = mode_ a /\ IsStreamValid a' = false.
Proof.
  intros Ha Hp Hj Hsize Hval Hfresh. unfold INT_MAX in Hsize.
  assert (Hw : 0 < Z.of_nat (sizeof k)) by (destruct k; simpl; lia).
  set (n := length val) in *. set (w := sizeof k) in *.
  rewrite (vector_basic_read k a fresh (Z.of_nat n)
             (image sizeof_int (Z.of_nat n * Z.of_nat w))
             (vector_data k (take j val)) Ha);
    [| nia | apply image_length | exact Hp].
  cbv zeta. fold w.
  rewrite int_of_image_image, !to_int32_id by lia.
  rewrite Z.eqb_refl, Nat2Z.id.
  assert (Hgot : length (vector_data k (take j val)) = (j * w)%nat).
  { rewrite vector_data_length, length_take_le by (fold n; lia). reflexivity. }
  assert (Hrest : drop (gpos (file_ a) + 8) (content (file_ a))
                  = vector_data k (take j val)).
  { rewrite <- drop_drop. fold (pending a). rewrite Hp.
    change 8%nat with (4 + 4)%nat. rewrite <- drop_drop.
    rewrite drop_app_length' by now rewrite image_length.
    now rewrite drop_app_length' by now rewrite image_length. }
  unfold fstream_read. simpl failbit. cbv iota.
  simpl gpos. simpl content. rewrite Hrest.
  rewrite take_ge by (rewrite Hgot; nia).
  cbn [fst snd]. rewrite Hgot. subst w.
  rewrite vector_data_drop by (rewrite length_resize; lia).
  rewrite <- vector_data_app.
  eexists. split; [| split].
  - f_equal. f_equal.
    replace n with (length (take j val ++ drop j (resize n 0 fresh))) at 1.
    + apply vector_of_data_whole. apply Forall_app. split.
      * now apply Forall_take.
      * apply Forall_drop, Forall_resize; [apply representable_0 | exact Hfresh].
    + rewrite length_app, length_take_le, length_drop, length_resize
        by (fold n; lia). lia.
  - reflexivity.
  - unfold IsStreamValid. simpl.
    destruct (Z.eqb_spec (Z.of_nat (j * sizeof k)) (Z.of_nat n * Z.of_nat (sizeof k)));
      [nia|].
    reflexivity.
Qed.

(** X10.  Reading a vector of arithmetic elements from a file whose count
    and byte count agree but whose payload stops after [j] whole elements
    passes the assertion and returns normally: the vector has the length
    the count says, its first [j] elements come from the file, and the
    others are what the resized destination held (zeros where it was
    shorter). *)
Theorem cut_payload_partly_fills (k : arithmetic) (fs : filesystem)
    (path : string) (val fresh : list Z) (j : nat) :
  files fs !! path
  = Some (image sizeof_int (Z.of_nat (length val))
          ++ image sizeof_int (Z.of_nat (length val) * Z.of_nat (sizeof k))
          ++ vector_data k (take j val)) ->
  (j < length val)%nat ->
  Z.of_nat (length val) * Z.of_nat (sizeof k) <= INT_MAX ->
  Forall (representable k) val -> Forall (representable k) fresh ->
  with_archive fs path Read (fun file => vector_basic k file fresh)
  = Done (fs, take j val ++ drop j (resize (length val) 0 fresh)).
Proof.
  intros Hfile Hj Hsize Hval Hfresh.
  destruct (vector_basic_cut k (new_reader path _) fresh val j
              (reader_new _ _) (pending_new _ _) Hj Hsize Hval Hfresh)
    as (a' & Hread & Hmode & _).
  eapply with_archive_read; [exact Hfile | exact Hread | exact Hmode].
Qed.

End CutPayload.

Lemma cut_payload_partly_fills_witness :
  with_archive
    (stored empty_disk "hello.bin"
       (image (bo := LittleEndian) sizeof_int 3
        ++ image (bo := LittleEndian) sizeof_int 12
        ++ vector_data (bo := LittleEndian) t_int [1]))
    "hello.bin" Read
    (fun file => vector_basic (bo := LittleEndian) t_int file [7; 8; 9; 10])
  = Done (stored empty_disk "hello.bin"
            (image (bo := LittleEndian) sizeof_int 3
             ++ image (bo := LittleEndian) sizeof_int 12
             ++ vector_data (bo := LittleEndian) t_int [1]),
          [1; 8; 9]).
Proof.
  apply (cut_payload_partly_fills (bo := LittleEndian) t_int _ "hello.bin"
           [1; 2; 3] [7; 8; 9; 10] 1).
  - apply stored_lookup.
  - simpl. lia.
  - vm_compute. discriminate.
  - repeat (constructor; [unfold representable; simpl; lia|]). constructor.
  - repeat (constructor; [unfold representable; simpl; lia|]). constructor.
Defined.

(** ** More round trips *)

Section MoreRoundTrips.
Context {bo : byte_order}.

Lemma typed_back_text_free elem :
  text_free elem = true -> forall val, typed_back elem val = val.
Proof.
  induction elem as [k| |e IH]; cbn [text_free typed_back]; intros Hfree val.
  - reflexivity.
  - discriminate.
  - rewrite (map_ext _ (fun x => x)) by (intros x; now apply IH).
    apply map_id.
Qed.

(** X11.  A vector nested to any depth whose innermost elements are
    arithmetic (a vector of vectors of [int], say) and whose counts fit
    the format is read back exactly as it was written, into any
    destination. *)
Theorem nested_numeric_round_trip (elem : ctype) (fs : filesystem)
    (path : string) (val fresh : list (denote elem)) :
  path ∉ denied fs -> text_free elem = true -> typed_fits elem val ->
  with_archive fs path Write (fun file => vector_op elem file val)
  = Done (stored fs path (typed_wire elem val), val)
  /\ with_archive (stored fs path (typed_wire elem val)) path Read
       (fun file => vector_op elem file fresh)
     = Done (stored fs path (typed_wire elem val), val).
Proof.
  intros Hp Hfree Hfits. split.
  - apply with_archive_write; [exact Hp|].
    apply vector_op_writes_as; [apply writer_new | exact Hfits].
  - eapply with_archive_read; [apply stored_lookup | |].
    + rewrite (vector_op_reads_as elem _ val fresh []);
        [| apply reader_new | exact Hfits | exact I
         | now rewrite pending_new, app_nil_r].
      now rewrite typed_back_text_free.
    + reflexivity.
Qed.

(** X12.  Deserialization does not look for the end of the file: an
    object is read the same from a file that goes on after its last
    member, whatever follows. *)
Theorem trailing_bytes_are_ignored (fs : filesystem) (path : string)
    (obj fresh : list field) (extra : list ascii) :
  files fs !! path = Some (object_wire obj ++ extra) ->
  Forall field_fits obj -> Forall2 same_type obj fresh ->
  SerializeFromFile fs fresh path = Done (fs, map field_back obj).
Proof.
  intros Hfile Hobj Hfresh. unfold SerializeFromFile.
  eapply with_archive_read; [exact Hfile | |].
  - unfold Serialize, members_serializable.
    rewrite serialize_members_in_order.
    apply (in_order_reads _ _ _ _ _ serialize_field_reads_as obj fresh _ extra);
      [apply reader_new | exact Hobj | exact Hfresh | apply pending_new].
  - reflexivity.
Qed.

(** X13.  [int] and [unsigned int] share one encoding and the file does
    not say which was written: an [int] read back as [unsigned int] comes
    out increased by 2^32 when it was negative, and an [unsigned int] read
    back as [int] comes out decreased by 2^32 when it was 2^31 or more. *)
Theorem scalar_types_share_encoding (fs : filesystem) (path : string)
    (i u fresh : Z) :
  path ∉ denied fs -> - 2 ^ 31 <= i < 2 ^ 31 -> 0 <= u < 2 ^ 32 ->
  (with_archive fs path Write (fun file => Done (op_int file i))
     = Done (stored fs path (image sizeof_int i), i) /\
   with_archive (stored fs path (image sizeof_int i)) path Read
       (fun file => Done (op_uint file fresh))
     = Done (stored fs path (image sizeof_int i),
             if i <? 0 then i + 2 ^ 32 else i))
  /\
  (with_archive fs path Write (fun file => Done (op_uint file u))
     = Done (stored fs path (image sizeof_int u), u) /\
   with_archive (stored fs path (image sizeof_int u)) path Read
       (fun file => Done (op_int file fresh))
     = Done (stored fs path (image sizeof_int u),
             if u <? 2 ^ 31 then u else u - 2 ^ 32)).
Proof.
  intros Hp Hi Hu. split; split.
  - apply with_archive_write; [exact Hp|].
    now rewrite op_int_write by apply writer_new.
  - eapply with_archive_read; [apply stored_lookup | |].
    + rewrite (op_uint_read _ _ (image sizeof_int i) []);
        [| apply reader_new | now rewrite pending_new, app_nil_r
         | apply image_length].
      rewrite uint_of_image_image. do 3 f_equal.
      unfold to_uint32, wrap_unsigned.
      change (2 ^ 32) with 4294967296. change (2 ^ 31) with 2147483648 in Hi.
      destruct (Z.ltb_spec i 0); Z.div_mod_to_equations; lia.
    + reflexivity.
  - apply with_archive_write; [exact Hp|].
    now rewrite op_uint_write by apply writer_new.
  - eapply with_archive_read; [apply stored_lookup | |].
    + rewrite (op_int_read _ _ (image sizeof_int u) []);
        [| apply reader_new | now rewrite pending_new, app_nil_r
         | apply image_length].
      rewrite int_of_image_image. do 3 f_equal.
      unfold to_int32, wrap_signed.
      rewrite Z.mod_small by exact Hu. reflexivity.
    + reflexivity.
Qed.

Lemma text_cycle_once fs path val :
  path ∉ denied fs -> text_fits val ->
  text_cycle path (fs, val) = Done (stored fs path (text_wire val), c_str val).
Proof.
  intros Hp Hfits. unfold text_cycle. simpl fst. simpl snd.
  rewrite (with_archive_write fs path _ (text_wire val) val Hp)
    by (apply op_string_write; [apply writer_new | exact Hfits]).
  unfold mbind, outcome_bind. cbv beta iota.
  eapply with_archive_read; [apply stored_lookup | |].
  - rewrite (text_wire_read _ [] val []);
      [reflexivity | apply reader_new | exact Hfits
       | now rewrite pending_new, app_nil_r].
  - reflexivity.
Qed.

(** X14.  Every save and load of a text through a file adds one
    terminator to it: after [n] cycles the text is the original one
    followed by [n] terminator bytes (as long as it stays shorter than
    INT_MAX). *)
Theorem text_grows_each_cycle (n : nat) (fs : filesystem) (path : string)
    (val : list ascii) :
  path ∉ denied fs ->
  Z.of_nat (length val) + Z.of_nat n <= INT_MAX ->
  exists fs',
    text_cycles n path (fs, val) = Done (fs', val ++ replicate n NUL)
    /\ denied fs' = denied fs.
Proof.
  revert fs val. induction n as [|n IH]; intros fs val Hp Hlen.
  - exists fs. simpl. now rewrite app_nil_r.
  - cbn [text_cycles].
    rewrite text_cycle_once by (try exact Hp; unfold text_fits; lia).
    unfold mbind at 1, outcome_bind at 1. cbv beta iota.
    destruct (IH (stored fs path (text_wire val)) (c_str val)) as (fs' & Hrun & Hden).
    + exact Hp.
    + rewrite c_str_length. lia.
    + exists fs'. split; [| exact Hden].
      rewrite Hrun. unfold c_str. now rewrite <- app_assoc.
Qed.

End MoreRoundTrips.

Lemma nested_numeric_round_trip_witness :
  with_archive empty_disk "hello.bin" Write
    (fun file => vector_op (bo := LittleEndian) (StdVector (Arithmetic t_int)) file
                   [[1; 2]; []; [3]])
  = Done (stored empty_disk "hello.bin"
            (typed_wire (bo := LittleEndian) (StdVector (Arithmetic t_int))
               [[1; 2]; []; [3]]),
          [[1; 2]; []; [3]])
  /\ with_archive
       (stored empty_disk "hello.bin"
          (typed_wire (bo := LittleEndian) (StdVector (Arithmetic t_int))
             [[1; 2]; []; [3]]))
       "hello.bin" Read
       (fun file => vector_op (bo := LittleEndian) (StdVector (Arithmetic t_int)) file
                      [[9]])
     = Done (stored empty_disk "hello.bin"
               (typed_wire (bo := LittleEndian) (StdVector (Arithmetic t_int))
                  [[1; 2]; []; [3]]),
             [[1; 2]; []; [3]]).
Proof.
  apply (nested_numeric_round_trip (bo := LittleEndian)
           (StdVector (Arithmetic t_int)) empty_disk "hello.bin"
           [[1; 2]; []; [3]] [[9]]).
  - apply empty_disk_writable.
  - reflexivity.
  - repeat constructor; vm_compute; discriminate.
Defined.

Lemma trailing_bytes_are_ignored_witness :
  SerializeFromFile (H := members_serializable (bo := LittleEndian))
    (stored empty_disk "hello.bin"
       (object_wire (bo := LittleEndian) foo_main ++ chars "more"))
    (Foo 0 [] [] []) "hello.bin"
  = Done (stored empty_disk "hello.bin"
            (object_wire (bo := LittleEndian) foo_main ++ chars "more"),
          map field_back foo_main).
Proof.
  apply (trailing_bytes_are_ignored (bo := LittleEndian) _ "hello.bin" foo_main
           (Foo 0 [] [] []) (chars "more")).
  - apply stored_lookup.
  - apply foo_main_fits.
  - repeat constructor.
Defined.

Lemma scalar_types_share_encoding_witness :
  (with_archive empty_disk "hello.bin" Write
     (fun file => Done (op_int (bo := LittleEndian) file (-1)))
     = Done (stored empty_disk "hello.bin" (image (bo := LittleEndian) sizeof_int (-1)), -1) /\
   with_archive (stored empty_disk "hello.bin" (image (bo := LittleEndian) sizeof_int (-1)))
     "hello.bin" Read (fun file => Done (op_uint (bo := LittleEndian) file 0))
     = Done (stored empty_disk "hello.bin" (image (bo := LittleEndian) sizeof_int (-1)),
             4294967295))
  /\
  (with_archive empty_disk "hello.bin" Write
     (fun file => Done (op_uint (bo := LittleEndian) file 4294967295))
     = Done (stored empty_disk "hello.bin"
               (image (bo := LittleEndian) sizeof_int 4294967295), 4294967295) /\
   with_archive (stored empty_disk "hello.bin"
                   (image (bo := LittleEndian) sizeof_int 4294967295))
     "hello.bin" Read (fun file => Done (op_int (bo := LittleEndian) file 0))
     = Done (stored empty_disk "hello.bin"
               (image (bo := LittleEndian) sizeof_int 4294967295), -1)).
Proof.
  apply (scalar_types_share_encoding (bo := LittleEndian) empty_disk "hello.bin"
           (-1) 4294967295 0).
  - apply empty_disk_writable.
  - lia.
  - lia.
Defined.

Lemma text_grows_each_cycle_witness :
  exists fs',
    text_cycles (bo := LittleEndian) 3 "hello.bin" (empty_disk, chars "Hello")
    = Done (fs', chars "Hello" ++ replicate 3 NUL)
    /\ denied fs' = denied empty_disk.
Proof.
  apply (text_grows_each_cycle (bo := LittleEndian) 3 empty_disk "hello.bin"
           (chars "Hello")).
  - apply empty_disk_writable.
  - vm_compute. discriminate.
Defined.

(** ** Limits and composition *)

Section Limits.
Context {bo : byte_order}.

Lemma op_string_write_overlong a val :
  writer a -> to_int32 (Z.of_nat (length val) + 1) < 0 ->
  op_string a val
  = Done (put_bad a (image sizeof_int (to_int32 (Z.of_nat (length val) + 1))), val).
Proof.
  intros Ha Hneg. destruct (writer_valid a Ha) as [Hv Hw]. destruct Ha as [Hm Hf].
  unfold op_string. rewrite Hv, Hw. simpl negb. cbv iota.
  rewrite (fstream_write_whole (file_ a)); [| exact Hf | now rewrite image_length].
  rewrite fstream_write_negative by (trivial; reflexivity).
  rewrite stream_put_put_bad. now rewrite app_nil_r.
Qed.

(** X15.  A text of INT_MAX characters or more (and fewer than 2^32 - 1):
    its length plus one does not fit the [int] of the length field.  The
    write stores the length field alone, holding the negative number
    length + 1 - 2^32, and none of the characters, and returns; reading
    that file back throws [std::length_error]. *)
Theorem overlong_text_cannot_be_read_back (fs : filesystem) (path : string)
    (val fresh : list ascii) :
  path ∉ denied fs ->
  INT_MAX <= Z.of_nat (length val) < 2 ^ 32 - 1 ->
  with_archive fs path Write (fun file => op_string file val)
  = Done (stored fs path (image sizeof_int (Z.of_nat (length val) + 1 - 2 ^ 32)), val)
  /\ Z.of_nat (length val) + 1 - 2 ^ 32 < 0
  /\ with_archive
       (stored fs path (image sizeof_int (Z.of_nat (length val) + 1 - 2 ^ 32)))
       path Read (fun file => op_string file fresh)
     = Stop LengthError.
Proof.
  intros Hp Hlen. unfold INT_MAX in Hlen.
  set (len := Z.of_nat (length val) + 1 - 2 ^ 32).
  assert (Hneg : - 2 ^ 31 <= len < 0) by (unfold len; lia).
  assert (Hwrap : to_int32 (Z.of_nat (length val) + 1) = len).
  { unfold len, to_int32, wrap_signed.
    change (2 ^ (32 - 1)) with 2147483648. change (2 ^ 32) with 4294967296 in *.
    destruct (Z.ltb_spec ((Z.of_nat (length val) + 1) mod 4294967296) 2147483648);
      Z.div_mod_to_equations; lia. }
  split; [| split].
  - apply with_archive_write_bad; [exact Hp|].
    rewrite op_string_write_overlong by (try apply writer_new; lia).
    now rewrite Hwrap.
  - lia.
  - apply with_archive_stop. rewrite (ctor_read _ _ _ (stored_lookup _ _ _)).
    simpl snd.
    apply (op_string_negative_length _ fresh (image sizeof_int len) []);
      [apply reader_new | now rewrite pending_new, app_nil_r
       | apply image_length |].
    rewrite int_of_image_image, to_int32_id by lia. lia.
Qed.

Lemma op_int_at_end a val :
  reader a -> pending a = [] -> - 2 ^ 31 <= val < 2 ^ 31 ->
  exists a', op_int a val = (a', val)
             /\ IsStreamValid a' = false /\ IsWrite a' = false
             /\ mode_ a' = mode_ a.
Proof.
  intros Ha Hp Hval. destruct (reader_valid a Ha) as [Hv Hw].
  destruct Ha as [Hm Hf].
  unfold op_int. rewrite Hv, Hw. simpl negb. cbv iota.
  unfold fstream_read. rewrite Hf.
  change (drop (gpos (file_ a)) (content (file_ a))) with (pending a).
  rewrite Hp, take_nil. cbn [length app]. rewrite drop_0.
  rewrite int_of_image_image, to_int32_id by exact Hval.
  eexists. split; [reflexivity|]. repeat split.
  unfold IsWrite. simpl. now rewrite Hm.
Qed.

(** X17.  Deserializing from an existing but empty file an object whose
    first member is an [int] returns normally: that member keeps its
    value, the stream is no longer good, and the members after it are
    skipped, the vectors among them emptied. *)
Theorem empty_file_leaves_first_int (fs : filesystem) (path : string)
    (val : Z) (rest : list field) :
  files fs !! path = Some [] -> - 2 ^ 31 <= val < 2 ^ 31 ->
  SerializeFromFile fs (int_field val :: rest) path
  = Done (fs, int_field val :: map emptied rest).
Proof.
  intros Hfile Hval. unfold SerializeFromFile.
  destruct (op_int_at_end (new_reader path []) val (reader_new _ _)
              (pending_new _ _) Hval) as (a' & Hop & Hv & Hw & Hm).
  eapply with_archive_read; [exact Hfile | |].
  - unfold Serialize, members_serializable.
    cbn [serialize_members serialize_field]. rewrite Hop.
    unfold mbind at 1, outcome_bind at 1. cbv beta iota.
    rewrite serialize_members_invalid_read by assumption.
    reflexivity.
  - exact Hm.
Qed.

End Limits.

Lemma overlong_text_cannot_be_read_back_witness :
  with_archive empty_disk "hello.bin" Write
    (fun file => op_string (bo := LittleEndian) file long_text)
  = Done (stored empty_disk "hello.bin"
            (image (bo := LittleEndian) sizeof_int
               (Z.of_nat (length long_text) + 1 - 2 ^ 32)), long_text)
  /\ Z.of_nat (length long_text) + 1 - 2 ^ 32 < 0
  /\ with_archive
       (stored empty_disk "hello.bin"
          (image (bo := LittleEndian) sizeof_int
             (Z.of_nat (length long_text) + 1 - 2 ^ 32)))
       "hello.bin" Read (fun file => op_string (bo := LittleEndian) file [])
     = Stop LengthError.
Proof.
  apply (overlong_text_cannot_be_read_back (bo := LittleEndian) empty_disk
           "hello.bin" long_text []).
  - apply empty_disk_writable.
  - unfold long_text. rewrite length_replicate, Z2Nat.id by lia.
    unfold INT_MAX. lia.
Defined.

Lemma empty_file_leaves_first_int_witness :
  SerializeFromFile (H := members_serializable (bo := LittleEndian))
    (stored empty_disk "hello.bin" []) foo_main "hello.bin"
  = Done (stored empty_disk "hello.bin" [],
          Foo 2 (chars "Hello") [] []).
Proof.
  apply (empty_file_leaves_first_int (bo := LittleEndian)
           (stored empty_disk "hello.bin" []) "hello.bin" 2
           [string_field (chars "Hello");
            vector_field (Arithmetic t_int) [1; 2; 3];
            vector_field StdString
              [chars "a";
               chars "HelloHelloHelloHelloHelloHelloHelloHelloHelloHelloHelloHello!"]]).
  - apply stored_lookup.
  - lia.
Defined.

Section Replace.
Context {bo : byte_order}.

(** X18.  Serializing to a path that already holds a serialized object
    replaces the file: nothing of the first object is left, the file is
    exactly the encoding of the second one, and deserializing it yields
    the second object (its strings with their terminator). *)
Theorem second_serialization_replaces_file (fs : filesystem) (path : string)
    (obj1 obj2 fresh : list field) :
  path ∉ denied fs ->
  Forall field_fits obj1 -> Forall field_fits obj2 ->
  Forall2 same_type obj2 fresh ->
  exists fs1 fs2,
    SerializeToFile fs obj1 path = Done (fs1, obj1)
    /\ SerializeToFile fs1 obj2 path = Done (fs2, obj2)
    /\ files fs2 !! path = Some (object_wire obj2)
    /\ SerializeFromFile fs2 fresh path = Done (fs2, map field_back obj2).
Proof.
  intros Hp Hobj1 Hobj2 Hfresh.
  exists (stored fs path (object_wire obj1)), (stored fs path (object_wire obj2)).
  split; [| split; [| split]].
  - now apply SerializeToFile_members.
  - rewrite SerializeToFile_members by assumption.
    now rewrite stored_stored.
  - apply stored_lookup.
  - apply (SerializeFromFile_members _ obj2); [apply stored_lookup | | ]; assumption.
Qed.

End Replace.

Lemma second_serialization_replaces_file_witness :
  exists fs1 fs2,
    SerializeToFile (H := members_serializable (bo := LittleEndian))
      empty_disk foo_main "hello.bin" = Done (fs1, foo_main)
    /\ SerializeToFile (H := members_serializable (bo := LittleEndian))
         fs1 (Foo 7 [] [4] []) "hello.bin" = Done (fs2, Foo 7 [] [4] [])
    /\ files fs2 !! "hello.bin"%string
       = Some (object_wire (bo := LittleEndian) (Foo 7 [] [4] []))
    /\ SerializeFromFile (H := members_serializable (bo := LittleEndian))
         fs2 foo_main "hello.bin"
       = Done (fs2, map field_back (Foo 7 [] [4] [])).
Proof.
  apply (second_serialization_replaces_file (bo := LittleEndian) empty_disk
           "hello.bin" foo_main (Foo 7 [] [4] []) foo_main).
  - apply empty_disk_writable.
  - apply foo_main_fits.
  - repeat constructor; vm_compute; discriminate.
  - repeat constructor.
Defined.
